(** * The htree directory of [assets/code]: block layout, hashing, insertion and lookup

    A shallow embedding of [htree_implementation.c] and [htree_benchmark.c].
    The two files share the data structures, [hash_filename] and
    [find_entry_block]; the benchmark file adds NULL checks after the
    allocations and the lookup [find_file].

    Conventions.
    - A [uintN_t] is a [Z] in [0, 2^N); every operation that can leave the
      range is followed by its wrap-around.
    - A string argument ([const char*]) is the list of the [char]s stored at
      the pointer, with the terminating NUL implied after the last element.
      The C functions read up to the first NUL, so the [char]s after an
      embedded [0] are never looked at.  A [char] is the value C computes
      with after integer promotion.
    - An array is a list of slots, [None] for a slot that was never written.
      A pointer is [None] when NULL.
    - An access the C standard leaves undefined (NULL, out of bounds, an
      indeterminate slot) is the outcome [Fault]. *)

From Stdlib Require Import ZArith Lia List String Ascii.
From stdpp Require Import base list.

Local Open Scope Z_scope.

(** ** Sizes ([#define]s and [sizeof]) *)

Definition BLOCK_SIZE : Z := 4096.
Definition MAX_FILENAME : Z := 255.

(** [sizeof] for the three structs, every member at its natural alignment:
    the 263 bytes of [dir_entry] are padded to a multiple of 4. *)
Definition align_up (n a : Z) : Z := (n + a - 1) / a * a.
Definition sizeof_block_header : Z := 4 + 4 + 4.
Definition sizeof_dir_entry : Z := align_up (4 + 2 + 1 + 1 + MAX_FILENAME) 4.
Definition sizeof_index_entry : Z := 4 + 4.

Definition MAX_ENTRIES_PER_BLOCK : Z :=
  (BLOCK_SIZE - sizeof_block_header) / sizeof_dir_entry.
Definition MAX_INDEX_ENTRIES : Z :=
  (BLOCK_SIZE - sizeof_block_header) / sizeof_index_entry.

Definition wrap8 (z : Z) : Z := z mod 2 ^ 8.
Definition wrap16 (z : Z) : Z := z mod 2 ^ 16.
Definition wrap32 (z : Z) : Z := z mod 2 ^ 32.

(** ** Outcomes *)

Inductive result (A : Type) : Type :=
| Done (a : A)
| Fault.
Arguments Done {A} a.
Arguments Fault {A}.

(** ** The C string functions the directory uses *)

Fixpoint strlen (s : list Z) : Z :=
  match s with
  | [] => 0
  | c :: s' => if c =? 0 then 0 else 1 + strlen s'
  end.

(** [strncpy(dest, src, n)] writes exactly [n] chars: the string, then NULs;
    a source of [n] or more chars is cut and left without terminator. *)
Fixpoint strncpy (src : list Z) (n : nat) : list Z :=
  match n with
  | O => []
  | S n' =>
      match src with
      | [] => 0 :: strncpy [] n'
      | c :: src' => if c =? 0 then 0 :: strncpy [] n' else c :: strncpy src' n'
      end
  end.

(** [strcmp(buf, s) == 0] where [buf] is a char array in a struct.  The
    comparison walks both strings until they differ or both end; when the
    array holds no NUL and agrees with [s] all along, the next read is past
    the end of the array. *)
Fixpoint strcmp_is0 (buf s : list Z) : result bool :=
  match buf with
  | [] => Fault
  | b :: buf' =>
      let c := hd 0 s in
      if b =? c
      then if b =? 0 then Done true else strcmp_is0 buf' (tl s)
      else Done false
  end.

(** ** [hash_filename] *)

Fixpoint hash_filename_loop (name : list Z) (hash : Z) : Z :=
  match name with
  | [] => hash
  | c :: name' =>
      if c =? 0 then hash
      else hash_filename_loop name'
             (wrap32 (wrap32 (wrap32 (Z.shiftl hash 5) + hash) + wrap32 c))
  end.

Definition hash_filename (name : list Z) : Z := hash_filename_loop name 0.

(** The accumulator in the words of the specification:
    [h = 0; for each byte b: h = (h << 5) + h + b], 32-bit wrap-around. *)
Definition hash_accumulator (name : list Z) : Z :=
  fold_left (fun h b => wrap32 (Z.shiftl h 5 + h + b)) name 0.

(** How a stored byte [b] in [0, 256) reads as a plain [char]. *)
Definition plain_char (char_is_signed : bool) (b : Z) : Z :=
  if char_is_signed && (128 <=? b) then b - 256 else b.

(** The chars that [*name], [name] a [const char*], yields from the bytes
    stored at it. *)
Definition chars_of_bytes (char_is_signed : bool) (bytes : list Z) : list Z :=
  plain_char char_is_signed <$> bytes.

(** ** Data structures *)

Record block_header := {
  block_type : Z;   (* ROOT = 1, INDEX = 2, ENTRY = 3 *)
  entry_count : Z;
  free_space : Z
}.

Record dir_entry := {
  de_inode : Z;
  de_rec_len : Z;
  de_name_len : Z;
  de_file_type : Z;
  de_name : list Z   (* char name[MAX_FILENAME] *)
}.

Record index_entry := {
  ie_hash : Z;
  ie_block_number : Z
}.

(** [data] is a union of the two arrays.  No function of either file
    writes through [indices], and [entries] is written in entry blocks only,
    so the two views are kept side by side. *)
Record htree_block := {
  header : block_header;
  entries : list (option dir_entry);
  indices : list (option index_entry)
}.

Record htree_directory := {
  root_block : htree_block;
  index_blocks : option (list (option htree_block));
  entry_blocks : option (list (option htree_block));
  num_index_blocks : Z;
  num_entry_blocks : Z
}.

Definition set_entry_blocks (p : option (list (option htree_block)))
    (dir : htree_directory) : htree_directory :=
  {| root_block := root_block dir;
     index_blocks := index_blocks dir;
     entry_blocks := p;
     num_index_blocks := num_index_blocks dir;
     num_entry_blocks := num_entry_blocks dir |}.

Definition set_num_entry_blocks (n : Z) (dir : htree_directory)
    : htree_directory :=
  {| root_block := root_block dir;
     index_blocks := index_blocks dir;
     entry_blocks := entry_blocks dir;
     num_index_blocks := num_index_blocks dir;
     num_entry_blocks := n |}.

(** ** Statements over the directory: state and fault *)

Definition M (A : Type) : Type := htree_directory -> result (A * htree_directory).

Definition ret {A} (a : A) : M A := fun dir => Done (a, dir).

Definition bind {A B} (m : M A) (k : A -> M B) : M B :=
  fun dir =>
    match m dir with
    | Done (a, dir') => k a dir'
    | Fault => Fault
    end.

Definition fault {A} : M A := fun _ => Fault.

(** [x ← m; k] and [m ;; k] are stdpp's notations for [bind]. *)
#[global] Instance M_ret : MRet M := @ret.
#[global] Instance M_bind : MBind M := fun A B k m => bind m k.

(** [dir->field] *)
Definition get {A} (field : htree_directory -> A) : M A :=
  fun dir => Done (field dir, dir).

Definition put_num_entry_blocks (n : Z) : M unit :=
  fun dir => Done (tt, set_num_entry_blocks n dir).

Definition put_entry_blocks (p : option (list (option htree_block))) : M unit :=
  fun dir => Done (tt, set_entry_blocks p dir).

(** [*dir->entry_blocks[i]] *)
Definition load_entry_block (i : nat) : M htree_block :=
  fun dir =>
    match entry_blocks dir with
    | None => Fault
    | Some slots =>
        match slots !! i with
        | Some (Some block) => Done (block, dir)
        | _ => Fault
        end
    end.

(** [dir->entry_blocks[i] = block] *)
Definition store_entry_block_slot (i : nat) (block : htree_block) : M unit :=
  fun dir =>
    match entry_blocks dir with
    | None => Fault
    | Some slots =>
        if decide (i < length slots)%nat
        then Done (tt, set_entry_blocks (Some (<[i := Some block]> slots)) dir)
        else Fault
    end.

(** A write through a [struct htree_block*] that points to the block of
    slot [i]: the pointer and the slot are aliases. *)
Definition write_entry_block (i : nat) (block : htree_block) : M unit :=
  load_entry_block i ;; store_entry_block_slot i block.

(** [array[j]] for reading, and [array[j] = x] *)
Definition load_slot {A} (slots : list (option A)) (j : nat) : M A :=
  match slots !! j with
  | Some (Some x) => ret x
  | _ => fault
  end.

Definition store_slot {A} (slots : list (option A)) (j : nat) (x : A)
    : M (list (option A)) :=
  if decide (j < length slots)%nat then ret (<[j := Some x]> slots) else fault.

(** ** The allocator *)

(** What the heap answers to the allocations of one call: [add_entry_block]
    asks for one [realloc] and then one [malloc]. *)
Inductive heap_answer := HeapOk | ReallocNull | MallocNull.

(** [realloc(p, n * sizeof(ptr))], [ptr] a block pointer: the first [n] slots are
    kept, new slots are indeterminate; [realloc(NULL, _)] allocates.  A
    request of size zero is not defined. *)
Definition realloc (heap : heap_answer) (p : option (list (option htree_block)))
    (n : Z) : M (option (list (option htree_block))) :=
  if n =? 0 then fault
  else match heap with
       | ReallocNull => ret None
       | _ => ret (Some (resize (Z.to_nat n) None (default [] p)))
       end.

(** [malloc(sizeof(struct htree_block))]: no slot of the block is written.
    The header is a placeholder: [add_entry_block] assigns its three fields
    before anything reads them. *)
Definition malloc_block (heap : heap_answer) : option htree_block :=
  match heap with
  | MallocNull => None
  | _ => Some {| header := {| block_type := 0; entry_count := 0; free_space := 0 |};
                 entries := replicate (Z.to_nat MAX_ENTRIES_PER_BLOCK) None;
                 indices := replicate (Z.to_nat MAX_INDEX_ENTRIES) None |}
  end.

Definition set_header (h : block_header) (block : htree_block) : htree_block :=
  {| header := h; entries := entries block; indices := indices block |}.

(** ** [init_htree_directory] (both allocations succeeding) *)

Definition init_htree_directory : htree_directory :=
  {| root_block :=
       {| header := {| block_type := 1;
                       entry_count := 0;
                       free_space := BLOCK_SIZE - sizeof_block_header |};
          entries := replicate (Z.to_nat MAX_ENTRIES_PER_BLOCK) None;
          indices := replicate (Z.to_nat MAX_INDEX_ENTRIES) None |};
     index_blocks := None;
     entry_blocks := None;
     num_index_blocks := 0;
     num_entry_blocks := 0 |}.

(** The record [insert_file] writes into the slot [entry]. *)
Definition new_dir_entry (name : list Z) (inode : Z) : dir_entry :=
  {| de_inode := inode;
     de_name_len := wrap8 (strlen name);
     de_rec_len := wrap16 sizeof_dir_entry;
     de_file_type := 1;
     de_name := strncpy name (Z.to_nat MAX_FILENAME) |}.

(** ** [htree_implementation.c] *)

Module Impl.

(** No result of an allocation is checked: the first store through a NULL
    pointer is the fault. *)
Definition add_entry_block (heap : heap_answer) : M nat :=
  n ← get num_entry_blocks;
  put_num_entry_blocks (wrap32 (n + 1)) ;;
  n ← get num_entry_blocks;
  old ← get entry_blocks;
  p ← realloc heap old n;
  put_entry_blocks p ;;
  match malloc_block heap with
  | None => fault
  | Some block =>
      let block :=
        set_header {| block_type := 3;
                      entry_count := 0;
                      free_space := BLOCK_SIZE - sizeof_block_header |} block in
      n ← get num_entry_blocks;
      store_entry_block_slot (Z.to_nat (wrap32 (n - 1))) block ;;
      ret (Z.to_nat (wrap32 (n - 1)))
  end.

(** The [for] loop from [i] on, with [todo] iterations left. *)
Fixpoint find_entry_block_loop (i todo : nat) : M (option nat) :=
  match todo with
  | O => ret None
  | S todo' =>
      block ← load_entry_block i;
      if entry_count (header block) <? MAX_ENTRIES_PER_BLOCK
      then ret (Some i)
      else find_entry_block_loop (S i) todo'
  end.

Definition find_entry_block (heap : heap_answer) (hash : Z) : M nat :=
  n ← get num_entry_blocks;
  found ← find_entry_block_loop 0 (Z.to_nat n);
  match found with
  | Some i => ret i
  | None => add_entry_block heap
  end.

Definition insert_file (heap : heap_answer) (name : list Z) (inode : Z) : M unit :=
  let hash := hash_filename name in
  p ← find_entry_block heap hash;
  block ← load_entry_block p;
  slots ← store_slot (entries block) (Z.to_nat (entry_count (header block)))
             (new_dir_entry name inode);
  write_entry_block p
    {| header := {| block_type := block_type (header block);
                    entry_count := wrap32 (entry_count (header block) + 1);
                    free_space :=
                      wrap32 (free_space (header block) - sizeof_dir_entry) |};
       entries := slots;
       indices := indices block |}.

End Impl.

(** ** [htree_benchmark.c] *)

Module Bench.

Definition add_entry_block (heap : heap_answer) : M (option nat) :=
  n ← get num_entry_blocks;
  put_num_entry_blocks (wrap32 (n + 1)) ;;
  n ← get num_entry_blocks;
  old ← get entry_blocks;
  p ← realloc heap old n;
  put_entry_blocks p ;;
  match p with
  | None => ret None
  | Some _ =>
      match malloc_block heap with
      | None =>
          n ← get num_entry_blocks;
          put_num_entry_blocks (wrap32 (n - 1)) ;;
          ret None
      | Some block =>
          let block :=
            set_header {| block_type := 3;
                          entry_count := 0;
                          free_space := BLOCK_SIZE - sizeof_block_header |} block in
          n ← get num_entry_blocks;
          store_entry_block_slot (Z.to_nat (wrap32 (n - 1))) block ;;
          ret (Some (Z.to_nat (wrap32 (n - 1))))
      end
  end.

Fixpoint find_entry_block_loop (i todo : nat) : M (option nat) :=
  match todo with
  | O => ret None
  | S todo' =>
      block ← load_entry_block i;
      if entry_count (header block) <? MAX_ENTRIES_PER_BLOCK
      then ret (Some i)
      else find_entry_block_loop (S i) todo'
  end.

Definition find_entry_block (heap : heap_answer) (hash : Z) : M (option nat) :=
  n ← get num_entry_blocks;
  found ← find_entry_block_loop 0 (Z.to_nat n);
  match found with
  | Some i => ret (Some i)
  | None => add_entry_block heap
  end.

Definition insert_file (heap : heap_answer) (name : list Z) (inode : Z) : M unit :=
  let hash := hash_filename name in
  found ← find_entry_block heap hash;
  match found with
  | None => ret tt
  | Some p =>
      block ← load_entry_block p;
      slots ← store_slot (entries block) (Z.to_nat (entry_count (header block)))
                 (new_dir_entry name inode);
      write_entry_block p
        {| header := {| block_type := block_type (header block);
                        entry_count := wrap32 (entry_count (header block) + 1);
                        free_space :=
                          wrap32 (free_space (header block) - sizeof_dir_entry) |};
           entries := slots;
           indices := indices block |}
  end.

(** The inner loop over [block->data.entries], from [j] on. *)
Fixpoint find_file_entries (block : htree_block) (name : list Z) (j todo : nat)
    : M (option dir_entry) :=
  match todo with
  | O => ret None
  | S todo' =>
      entry ← load_slot (entries block) j;
      match strcmp_is0 (de_name entry) name with
      | Fault => fault
      | Done true => ret (Some entry)
      | Done false => find_file_entries block name (S j) todo'
      end
  end.

(** The outer loop over [dir->entry_blocks], from [i] on. *)
Fixpoint find_file_blocks (name : list Z) (i todo : nat) : M (option dir_entry) :=
  match todo with
  | O => ret None
  | S todo' =>
      block ← load_entry_block i;
      found ← find_file_entries block name 0
                 (Z.to_nat (entry_count (header block)));
      match found with
      | Some entry => ret (Some entry)
      | None => find_file_blocks name (S i) todo'
      end
  end.

(** The result is the record the returned pointer designates. *)
Definition find_file (name : list Z) : M (option dir_entry) :=
  let hash := hash_filename name in
  n ← get num_entry_blocks;
  find_file_blocks name 0 (Z.to_nat n).

End Bench.

(** ** Runs and reachable states *)

(** One call of [insert_file]: the arguments and what the heap answers. *)
Record request := {
  rq_heap : heap_answer;
  rq_name : list Z;
  rq_inode : Z
}.

Module ImplRun.

Fixpoint insert_files (reqs : list request) : M unit :=
  match reqs with
  | [] => ret tt
  | rq :: reqs' =>
      Impl.insert_file (rq_heap rq) (rq_name rq) (rq_inode rq) ;;
      insert_files reqs'
  end.

(** The directories a program gets from [init_htree_directory] through calls
    of [insert_file] that return. *)
Inductive reachable : htree_directory -> Prop :=
| reach_init : reachable init_htree_directory
| reach_insert dir heap name inode dir' :
    reachable dir ->
    Impl.insert_file heap name inode dir = Done (tt, dir') ->
    reachable dir'.

(** The directory a program holds after the calls [reqs]. *)
Definition dir_after (reqs : list request) : htree_directory :=
  match insert_files reqs init_htree_directory with
  | Done (_, dir) => dir
  | Fault => init_htree_directory
  end.

End ImplRun.

Module BenchRun.

Fixpoint insert_files (reqs : list request) : M unit :=
  match reqs with
  | [] => ret tt
  | rq :: reqs' =>
      Bench.insert_file (rq_heap rq) (rq_name rq) (rq_inode rq) ;;
      insert_files reqs'
  end.

Inductive reachable : htree_directory -> Prop :=
| reach_init : reachable init_htree_directory
| reach_insert dir heap name inode dir' :
    reachable dir ->
    Bench.insert_file heap name inode dir = Done (tt, dir') ->
    reachable dir'.

(** The directory a program holds after the calls [reqs]. *)
Definition dir_after (reqs : list request) : htree_directory :=
  match insert_files reqs init_htree_directory with
  | Done (_, dir) => dir
  | Fault => init_htree_directory
  end.

End BenchRun.

(** ** Observations on a directory *)

(** The pointer array is there unless no block was ever asked for.  The one
    way to lose it is a failed [realloc] in the benchmark file. *)
Definition healthy (dir : htree_directory) : Prop :=
  entry_blocks dir = None -> num_entry_blocks dir = 0.

(** The written slots among the first [n] of an array. *)
Definition written {A} (n : Z) (slots : list (option A)) : list A :=
  omap id (take (Z.to_nat n) slots).

Definition block_at (dir : htree_directory) (i : nat) : option htree_block :=
  match entry_blocks dir with
  | None => None
  | Some slots => if decide (Z.of_nat i < num_entry_blocks dir)
                  then mjoin (slots !! i) else None
  end.

Definition directory_entry_blocks (dir : htree_directory) : list htree_block :=
  written (num_entry_blocks dir) (default [] (entry_blocks dir)).

Definition directory_index_blocks (dir : htree_directory) : list htree_block :=
  written (num_index_blocks dir) (default [] (index_blocks dir)).

(** Root, index blocks, entry blocks. *)
Definition directory_blocks (dir : htree_directory) : list htree_block :=
  root_block dir :: directory_index_blocks dir ++ directory_entry_blocks dir.

(** The records of a block are its first [entry_count] slots. *)
Definition block_records (block : htree_block) : list dir_entry :=
  written (entry_count (header block)) (entries block).

Definition block_index_records (block : htree_block) : list index_entry :=
  written (entry_count (header block)) (indices block).

(** All records, block after block, slot after slot. *)
Definition directory_records (dir : htree_directory) : list dir_entry :=
  concat (block_records <$> directory_entry_blocks dir).

(** The first record whose name compares equal, as [find_file] compares. *)
Fixpoint first_match (name : list Z) (recs : list dir_entry)
    : result (option dir_entry) :=
  match recs with
  | [] => Done None
  | entry :: recs' =>
      match strcmp_is0 (de_name entry) name with
      | Fault => Fault
      | Done true => Done (Some entry)
      | Done false => first_match name recs'
      end
  end.

(** Modelled from the spec: [stats()], the read-only introspection
    [{ entry_block_count, index_block_count, total_entries }]; the source
    has no such function, [main] prints the same counters field by field. *)
Record directory_stats := {
  entry_block_count : Z;
  index_block_count : Z;
  total_entries : Z
}.

Definition stats (dir : htree_directory) : directory_stats :=
  {| entry_block_count := num_entry_blocks dir;
     index_block_count := num_index_blocks dir;
     total_entries :=
       foldr Z.add 0 ((fun b => entry_count (header b)) <$> directory_entry_blocks dir) |}.

(** ** The layout contract of the specification *)

Definition record_size (type : Z) : Z :=
  if type =? 3 then sizeof_dir_entry else sizeof_index_entry.

Definition capacity_for (type : Z) : Z :=
  if type =? 3 then MAX_ENTRIES_PER_BLOCK else MAX_INDEX_ENTRIES.

Definition within_capacity (block : htree_block) : Prop :=
  entry_count (header block) * record_size (block_type (header block))
    + sizeof_block_header <= BLOCK_SIZE /\
  0 <= entry_count (header block) <= capacity_for (block_type (header block)).

(** ** Routing as the specification describes it *)

(** [route]: the [block_number] of the last record whose hash is at most
    the target, the records being in ascending order of hash. *)
Definition route (recs : list index_entry) (target : Z) : option Z :=
  ie_block_number <$> last (filter (fun r => ie_hash r <= target) recs).

(** The range of the [k]-th boundary: from its hash up to the next
    boundary's, the last one up to [2^32]. *)
Definition boundary_range (recs : list index_entry) (k : nat) : option (Z * Z) :=
  match recs !! k with
  | None => None
  | Some r => Some (ie_hash r, from_option ie_hash (2 ^ 32) (recs !! S k))
  end.

(** No gap: every hash is in a range.  No overlap: in one range only. *)
Definition partitions_hash_space (recs : list index_entry) : Prop :=
  forall h, 0 <= h < 2 ^ 32 ->
    exists k, (exists lo hi, boundary_range recs k = Some (lo, hi) /\ lo <= h < hi) /\
      forall k', (exists lo hi, boundary_range recs k' = Some (lo, hi) /\ lo <= h < hi) ->
                 k' = k.

(** ** The shape of the directories the code builds *)

(** The entry block that holds the records [es] and nothing else. *)
Definition block_of (es : list dir_entry) : htree_block :=
  {| header :=
       {| block_type := 3;
          entry_count := Z.of_nat (length es);
          free_space := BLOCK_SIZE - sizeof_block_header
                        - sizeof_dir_entry * Z.of_nat (length es) |};
     entries := (Some <$> es)
                ++ replicate (Z.to_nat MAX_ENTRIES_PER_BLOCK - length es)%nat None;
     indices := replicate (Z.to_nat MAX_INDEX_ENTRIES) None |}.

Definition slots_of (ess : list (list dir_entry)) : list (option htree_block) :=
  (fun es => Some (block_of es)) <$> ess.

(** Blocks are filled one after the other: all full but the last, which
    holds at least the record it was allocated for. *)
Inductive filled : list (list dir_entry) -> Prop :=
| filled_nil : filled []
| filled_snoc fulls last :
    Forall (fun es => Z.of_nat (length es) = MAX_ENTRIES_PER_BLOCK) fulls ->
    1 <= Z.of_nat (length last) <= MAX_ENTRIES_PER_BLOCK ->
    filled (fulls ++ [last]).

(** [dir] holds the entry blocks [ess], in this order, and nothing else. *)
Record represents (dir : htree_directory) (ess : list (list dir_entry)) : Prop := {
  rep_root : root_block dir = root_block init_htree_directory;
  rep_index_blocks : index_blocks dir = None;
  rep_num_index : num_index_blocks dir = 0;
  rep_num : num_entry_blocks dir = Z.of_nat (length ess);
  rep_bound : Z.of_nat (length ess) < 2 ^ 32;
  rep_slots : exists junk, default [] (entry_blocks dir) = slots_of ess ++ junk;
  rep_filled : filled ess;
  rep_names :
    Forall (Forall (fun e => length (de_name e) = Z.to_nat MAX_FILENAME)) ess
}.

(** The index of the first block with room, counting from [i]. *)
Fixpoint first_room (ess : list (list dir_entry)) (i : nat) : option nat :=
  match ess with
  | [] => None
  | es :: ess' =>
      if Z.of_nat (length es) <? MAX_ENTRIES_PER_BLOCK then Some i
      else first_room ess' (S i)
  end.

(** What an insertion does to the records. *)
Definition place (e : dir_entry) (ess : list (list dir_entry))
    : list (list dir_entry) :=
  match first_room ess 0 with
  | Some i => alter (fun es => es ++ [e]) i ess
  | None => ess ++ [[e]]
  end.

(** ** The statements of the specification that the code is tested on *)

(** Round trip: after [insert(name, inode)], [find(name)] gives a record
    with that inode. *)
Definition round_trip (dir : htree_directory) (name : list Z) (inode : Z) : Prop :=
  forall dir',
    Bench.insert_file HeapOk name inode dir = Done (tt, dir') ->
    exists e, Bench.find_file name dir' = Done (Some e, dir') /\ de_inode e = inode.

(** Lookup looks at the routed block only: no match there, no result. *)
Definition scans_routed_block_only (dir : htree_directory) (name : list Z) : Prop :=
  forall p block,
    Bench.find_entry_block HeapOk (hash_filename name) dir = Done (Some p, dir) ->
    block_at dir p = Some block ->
    first_match name (block_records block) = Done None ->
    Bench.find_file name dir = Done (None, dir).

(** Routing answers with the boundary record of the root block. *)
Definition routes_by_boundary (dir : htree_directory) (hash : Z) : Prop :=
  forall p dir',
    Impl.find_entry_block HeapOk hash dir = Done (p, dir') ->
    route (block_index_records (root_block dir)) hash = Some (Z.of_nat p).

(** A name of more than [MAX_FILENAME] chars is refused and [stats()] stays. *)
Definition rejects_long_name (dir : htree_directory) (name : list Z) (inode : Z)
    : Prop :=
  forall dir',
    Impl.insert_file HeapOk name inode dir = Done (tt, dir') ->
    stats dir' = stats dir.

(** With an entry block in place, the boundaries of the root block cover
    the hash space. *)
Definition partition_invariant (dir : htree_directory) : Prop :=
  1 <= num_entry_blocks dir ->
  partitions_hash_space (block_index_records (root_block dir)).

(** The digest of a name is the accumulator over its bytes. *)
Definition accumulates_bytes (char_is_signed : bool) (bytes : list Z) : Prop :=
  hash_filename (chars_of_bytes char_is_signed bytes) = hash_accumulator bytes.

(** The result of a run, without the final directory. *)
Definition returned {A} (r : result (A * htree_directory)) : result A :=
  match r with
  | Done (a, _) => Done a
  | Fault => Fault
  end.

(** The chars of a string literal. *)
Definition chars (s : string) : list Z :=
  (fun a => Z.of_nat (nat_of_ascii a)) <$> list_ascii_of_string s.

Definition insert (name : string) (inode : Z) : request :=
  {| rq_heap := HeapOk; rq_name := chars name; rq_inode := inode |}.

(** A result that does not depend on the directory, as a statement. *)
Definition lift {A} (r : result A) : M A :=
  fun dir => match r with Done a => Done (a, dir) | Fault => Fault end.

(** The state a failed [realloc] leaves behind. *)
Definition broken (dir : htree_directory) : Prop :=
  entry_blocks dir = None /\ 0 < num_entry_blocks dir.

(** The statements of [insert_file] that follow the choice of the block
    [p]; the two files have them word for word. *)
Definition write_record (p : nat) (name : list Z) (inode : Z) : M unit :=
  block ← load_entry_block p;
  slots ← store_slot (entries block) (Z.to_nat (entry_count (header block)))
             (new_dir_entry name inode);
  write_entry_block p
    {| header := {| block_type := block_type (header block);
                    entry_count := wrap32 (entry_count (header block) + 1);
                    free_space :=
                      wrap32 (free_space (header block) - sizeof_dir_entry) |};
       entries := slots;
       indices := indices block |}.

(** ** Names as strings, requests as records *)

(** The string at a [const char*]: the chars before the first NUL. *)
Fixpoint cstring (s : list Z) : list Z :=
  match s with
  | [] => []
  | c :: s' => if c =? 0 then [] else c :: cstring s'
  end.

(** The record a request writes. *)
Definition entry_of (rq : request) : dir_entry :=
  new_dir_entry (rq_name rq) (rq_inode rq).

(** The first request of a run that carries the string of [name]. *)
Fixpoint first_request (name : list Z) (reqs : list request) : option request :=
  match reqs with
  | [] => None
  | rq :: reqs' =>
      if decide (cstring (rq_name rq) = cstring name) then Some rq
      else first_request name reqs'
  end.

(** Every entry block is full (or there is none): the next insertion needs
    a new block. *)
Definition no_room (dir : htree_directory) : Prop :=
  Forall (fun b => entry_count (header b) = MAX_ENTRIES_PER_BLOCK)
    (directory_entry_blocks dir).

(** Whether a call stores its record when [m] records are stored.  The
    blocks are filled in order: there is room unless the [m] records fill
    whole blocks (or there is none); then the call asks for a block, and
    stores its record if the heap gives one. *)
Definition stores (m : nat) (heap : heap_answer) : bool :=
  negb (Z.of_nat m mod MAX_ENTRIES_PER_BLOCK =? 0)
  || match heap with HeapOk => true | _ => false end.

(** The records that the calls [reqs] store behind [m] records. *)
Fixpoint stored_by (m : nat) (reqs : list request) : list dir_entry :=
  match reqs with
  | [] => []
  | rq :: reqs' =>
      if stores m (rq_heap rq) then entry_of rq :: stored_by (S m) reqs'
      else stored_by m reqs'
  end.

(** ** [generate_filename] *)

Definition FILENAME_LENGTH : Z := 20.

(** [static const char charset[]]: the 36 chars and the terminator. *)
Definition charset : list Z := chars "abcdefghijklmnopqrstuvwxyz0123456789" ++ [0].
Definition sizeof_charset : Z := Z.of_nat (length charset).

(** [size_t], as the [%lu] of [main] takes it. *)
Definition wrap_size_t (z : Z) : Z := z mod 2 ^ 64.

Definition and_then {A B} (r : result A) (k : A -> result B) : result B :=
  match r with
  | Done a => k a
  | Fault => Fault
  end.

(** [buffer[i] = c] on a char buffer. *)
Definition store_char (buffer : list (option Z)) (i : nat) (c : Z)
    : result (list (option Z)) :=
  if decide (i < length buffer)%nat then Done (<[i := Some c]> buffer) else Fault.

(** The read [charset[k]]. *)
Definition load_char (array : list Z) (k : Z) : result Z :=
  if decide (0 <= k)
  then match array !! Z.to_nat k with Some c => Done c | None => Fault end
  else Fault.

(** [strcpy(buffer + pos, src)]: the chars of [src] and its terminator. *)
Fixpoint strcpy (buffer : list (option Z)) (pos : nat) (src : list Z)
    : result (list (option Z)) :=
  match src with
  | [] => store_char buffer pos 0
  | c :: src' =>
      if c =? 0 then store_char buffer pos 0
      else and_then (store_char buffer pos c) (fun buffer => strcpy buffer (S pos) src')
  end.

(** The string at a buffer, for the call that takes it as [const char*]. *)
Fixpoint read_string (buffer : list (option Z)) : result (list Z) :=
  match buffer with
  | Some c :: buffer' =>
      if c =? 0 then Done []
      else and_then (read_string buffer') (fun s => Done (c :: s))
  | _ => Fault
  end.

(** [rand()] is the sequence of its results, [rand k] the one of call [k];
    the functions that call it return the number of the next call. *)
Fixpoint generate_filename_loop (rand : nat -> Z) (i todo k : nat)
    (buffer : list (option Z)) : result (list (option Z) * nat) :=
  match todo with
  | O => Done (buffer, k)
  | S todo' =>
      and_then (load_char charset (wrap_size_t (rand k) mod (sizeof_charset - 1)))
        (fun c =>
           and_then (store_char buffer i c)
             (fun buffer => generate_filename_loop rand (S i) todo' (S k) buffer))
  end.

Definition generate_filename (rand : nat -> Z) (k : nat) (buffer : list (option Z))
    : result (list (option Z) * nat) :=
  and_then (generate_filename_loop rand 0 (Z.to_nat (FILENAME_LENGTH - 4)) k buffer)
    (fun '(buffer, k) =>
       and_then (strcpy buffer (Z.to_nat (FILENAME_LENGTH - 4)) (chars ".txt"))
         (fun buffer =>
            and_then (store_char buffer (Z.to_nat FILENAME_LENGTH) 0)
              (fun buffer => Done (buffer, k)))).

(** ** [cleanup_htree_directory] *)

(** What a call of [free] releases. *)
Inductive released :=
| ReleasedBlock (block : htree_block)
| ReleasedArray (slots : list (option htree_block))
| ReleasedDirectory.

(** The loop [free(array[i])], from [i] on; a slot that holds no pointer
    cannot be passed to [free]. *)
Fixpoint free_blocks (slots : list (option htree_block)) (i todo : nat)
    : result (list released) :=
  match todo with
  | O => Done []
  | S todo' =>
      match slots !! i with
      | Some (Some block) =>
          and_then (free_blocks slots (S i) todo')
            (fun l => Done (ReleasedBlock block :: l))
      | _ => Fault
      end
  end.

Definition free_block_array (p : option (list (option htree_block))) (n : Z)
    : result (list released) :=
  match p with
  | None => Done []
  | Some slots =>
      and_then (free_blocks slots 0 (Z.to_nat n))
        (fun l => Done (l ++ [ReleasedArray slots]))
  end.

(** The calls of [free], in order; [dir] is [None] for the NULL pointer. *)
Definition cleanup_htree_directory (dir : option htree_directory)
    : result (list released) :=
  match dir with
  | None => Done []
  | Some dir =>
      and_then (free_block_array (index_blocks dir) (num_index_blocks dir))
        (fun index_part =>
           and_then (free_block_array (entry_blocks dir) (num_entry_blocks dir))
             (fun entry_part =>
                Done (ReleasedBlock (root_block dir) :: index_part ++ entry_part
                      ++ [ReleasedDirectory])))
  end.

(** ** [run_htree_benchmark]: file names, insertions, lookups *)

Definition NUM_FILES : Z := 10000.

(** The loop [filenames[i] = malloc(FILENAME_LENGTH + 1);
    generate_filename(filenames[i])], every [malloc] succeeding. *)
Fixpoint generate_filenames (rand : nat -> Z) (todo k : nat)
    : result (list (list (option Z)) * nat) :=
  match todo with
  | O => Done ([], k)
  | S todo' =>
      and_then (generate_filename rand k
                  (replicate (Z.to_nat (FILENAME_LENGTH + 1)) None))
        (fun '(buffer, k) =>
           and_then (generate_filenames rand todo' k)
             (fun '(filenames, k) => Done (buffer :: filenames, k)))
  end.

(** The loop [insert_file(dir, filenames[i], i + 1000)], from [i] on, the
    heap answering. *)
Fixpoint insert_filenames (filenames : list (list (option Z))) (i todo : nat)
    : M unit :=
  match todo with
  | O => ret tt
  | S todo' =>
      match filenames !! i with
      | None => fault
      | Some buffer =>
          match read_string buffer with
          | Fault => fault
          | Done name =>
              Bench.insert_file HeapOk name (wrap32 (Z.of_nat i + 1000)) ;;
              insert_filenames filenames (S i) todo'
          end
      end
  end.

(** The loop [index = rand() % NUM_FILES; find_file(dir, filenames[index])];
    [%] on [int] truncates, and a negative index is out of the array. *)
Fixpoint lookup_filenames (rand : nat -> Z) (filenames : list (list (option Z)))
    (todo k : nat) : M nat :=
  match todo with
  | O => ret k
  | S todo' =>
      let index := Z.rem (rand k) NUM_FILES in
      if decide (0 <= index)
      then match filenames !! Z.to_nat index with
           | None => fault
           | Some buffer =>
               match read_string buffer with
               | Fault => fault
               | Done name =>
                   Bench.find_file name ;;
                   lookup_filenames rand filenames todo' (S k)
               end
           end
      else fault
  end.

(** [sizeof] of the two structs the report multiplies out, pointers of 8
    bytes; the union takes the size of its larger array. *)
Definition sizeof_pointer : Z := 8.
Definition sizeof_htree_directory : Z := 3 * sizeof_pointer + 4 + 4.
Definition sizeof_htree_block : Z :=
  sizeof_block_header
  + Z.max (MAX_ENTRIES_PER_BLOCK * sizeof_dir_entry)
          (MAX_INDEX_ENTRIES * sizeof_index_entry).

(** [results.memory_usage], before its conversion to [double]: the block
    count is added up in [uint32_t], the rest in [size_t]. *)
Definition memory_usage (dir : htree_directory) : Z :=
  wrap_size_t (sizeof_htree_directory
               + wrap_size_t (sizeof_htree_block
                              * wrap32 (wrap32 (1 + num_index_blocks dir)
                                        + num_entry_blocks dir))).

(** [run_htree_benchmark] with every allocation succeeding, for its
    [memory_usage]; the two times it measures are not modelled, nor are the
    calls of [free] on the file names. *)
Definition run_htree_benchmark (rand : nat -> Z) : result Z :=
  and_then (generate_filenames rand (Z.to_nat NUM_FILES) 0)
    (fun '(filenames, k) =>
       match (insert_filenames filenames 0 (Z.to_nat NUM_FILES) ;;
              lookup_filenames rand filenames 1000 k ;;
              get memory_usage) init_htree_directory with
       | Fault => Fault
       | Done (usage, dir) =>
           and_then (cleanup_htree_directory (Some dir)) (fun _ => Done usage)
       end).

(** The calls the insertion loop makes for the names [names], from [i] on. *)
Fixpoint numbered_requests (i : nat) (names : list (list Z)) : list request :=
  match names with
  | [] => []
  | name :: names' =>
      {| rq_heap := HeapOk; rq_name := name; rq_inode := wrap32 (Z.of_nat i + 1000) |}
      :: numbered_requests (S i) names'
  end.

(** What [generate_filename] makes: a terminated name of [FILENAME_LENGTH]
    chars. *)
Definition generated (name : list Z) : Prop :=
  Forall (fun c => c <> 0) name /\ strlen name = FILENAME_LENGTH.

(** * Properties *)

Lemma wrap32_range z : 0 <= wrap32 z < 2 ^ 32.
Proof. unfold wrap32. apply Z.mod_pos_bound. lia. Qed.

Lemma wrap32_small z : 0 <= z < 2 ^ 32 -> wrap32 z = z.
Proof. intros. unfold wrap32. apply Z.mod_small; lia. Qed.

Lemma hash_step_wraps h c :
  wrap32 (wrap32 (wrap32 (Z.shiftl h 5) + h) + wrap32 c)
  = wrap32 (Z.shiftl h 5 + h + c).
Proof.
  unfold wrap32.
  rewrite <- Zplus_mod.
  rewrite <- Z.add_assoc, Zplus_mod_idemp_l, Z.add_assoc.
  reflexivity.
Qed.

Lemma hash_step_33 h c : wrap32 (Z.shiftl h 5 + h + c) = wrap32 (h * 33 + c).
Proof. rewrite Z.shiftl_mul_pow2 by lia. f_equal. lia. Qed.

Lemma hash_filename_loop_fold name : forall h,
  Forall (fun c => c <> 0) name ->
  hash_filename_loop name h
  = fold_left (fun h b => wrap32 (Z.shiftl h 5 + h + b)) name h.
Proof.
  induction name as [|c name IH]; intros h Hnz; simpl.
  - reflexivity.
  - inversion Hnz as [|? ? Hc Hrest]; subst.
    destruct (Z.eqb_spec c 0) as [->|_]; [congruence|].
    rewrite hash_step_wraps. apply IH, Hrest.
Qed.

Lemma hash_filename_loop_range name : forall h,
  0 <= h < 2 ^ 32 -> 0 <= hash_filename_loop name h < 2 ^ 32.
Proof.
  induction name as [|c name IH]; intros h Hh; simpl; [exact Hh|].
  destruct (c =? 0); [exact Hh|]. apply IH, wrap32_range.
Qed.

Lemma hash_filename_range name : 0 <= hash_filename name < 2 ^ 32.
Proof. apply hash_filename_loop_range. lia. Qed.

(** The digest is that of the chars before the first NUL. *)
Lemma hash_filename_loop_stops s1 s2 : forall h,
  Forall (fun c => c <> 0) s1 ->
  hash_filename_loop (s1 ++ 0 :: s2) h = hash_filename_loop s1 h.
Proof.
  induction s1 as [|c s1 IH]; intros h Hnz; simpl; [reflexivity|].
  inversion Hnz; subst.
  destruct (Z.eqb_spec c 0); [congruence|]. apply IH; assumption.
Qed.

(** The chars of a name: no byte of a string reads as the terminator. *)
Lemma chars_of_bytes_nonzero (char_is_signed : bool) (bytes : list Z) :
  Forall (fun b => 0 < b < 256) bytes ->
  Forall (fun c => c <> 0) (chars_of_bytes char_is_signed bytes).
Proof.
  intros Hb. unfold chars_of_bytes. apply Forall_fmap.
  eapply Forall_impl; [exact Hb|]. simpl. intros b Hlt. unfold plain_char.
  destruct (char_is_signed && (128 <=? b)); lia.
Qed.

Lemma fold_left_chars_of_bytes (char_is_signed : bool) (bytes : list Z) : forall h,
  fold_left (fun h c => wrap32 (Z.shiftl h 5 + h + c))
    (chars_of_bytes char_is_signed bytes) h
  = fold_left (fun h b => wrap32 (Z.shiftl h 5 + h + plain_char char_is_signed b))
      bytes h.
Proof.
  induction bytes as [|b bytes IH]; intros h; [reflexivity|]. simpl. apply IH.
Qed.

(** The chars of ASCII names, and of every name where plain [char] is
    unsigned, are the stored bytes. *)
Lemma chars_of_bytes_id (char_is_signed : bool) (bytes : list Z) :
  char_is_signed = false \/ Forall (fun b => b < 128) bytes ->
  chars_of_bytes char_is_signed bytes = bytes.
Proof.
  intros H. unfold chars_of_bytes. induction bytes as [|b bytes IH]; [reflexivity|].
  rewrite fmap_cons. f_equal.
  - unfold plain_char. destruct H as [->|H]; [reflexivity|].
    inversion H; subst. destruct char_is_signed; [|reflexivity]. simpl.
    destruct (Z.leb_spec 128 b); [lia|reflexivity].
  - apply IH. destruct H as [->|H]; [left; reflexivity|].
    right. inversion H; assumption.
Qed.

(** C7, as the code has it.  [hash_filename] adds [*name], a plain [char]:
    on every name (bytes other than the terminator) the digest is the
    accumulator [h = 0; h = (h << 5) + h + c] under 32-bit wrap-around over
    the chars [c] the bytes read as, which is the byte [b] itself below
    [0x80] or where plain [char] is unsigned, and [b - 256] from [0x80] on
    where it is signed.  So the digest is the accumulator over the bytes for
    every name of bytes below [0x80], and for every name where plain [char]
    is unsigned.  The function reads the chars up to the terminator and
    nothing else: whatever follows the terminator, the digest of a name is
    the same on every call. *)
Theorem hash_filename_is_accumulator (char_is_signed : bool) (bytes : list Z) :
  Forall (fun b => 0 < b < 256) bytes ->
  hash_filename (chars_of_bytes char_is_signed bytes)
  = fold_left (fun h b => wrap32 (Z.shiftl h 5 + h + plain_char char_is_signed b))
      bytes 0 /\
  (char_is_signed = false \/ Forall (fun b => b < 128) bytes ->
   hash_filename (chars_of_bytes char_is_signed bytes) = hash_accumulator bytes) /\
  (forall rest,
     hash_filename (chars_of_bytes char_is_signed (bytes ++ 0 :: rest))
     = hash_filename (chars_of_bytes char_is_signed bytes)).
Proof.
  intros Hb. pose proof (chars_of_bytes_nonzero char_is_signed bytes Hb) as Hnz.
  split; [|split].
  - unfold hash_filename. rewrite (hash_filename_loop_fold _ _ Hnz).
    apply fold_left_chars_of_bytes.
  - intros Hsame. rewrite (chars_of_bytes_id _ _ Hsame) in *.
    apply hash_filename_loop_fold, Hnz.
  - intros rest. unfold chars_of_bytes in *. rewrite fmap_app, fmap_cons.
    replace (plain_char char_is_signed 0) with 0
      by (unfold plain_char; destruct char_is_signed; reflexivity).
    apply hash_filename_loop_stops, Hnz.
Qed.

Lemma hash_filename_is_accumulator_witness :
  hash_filename (chars_of_bytes true [99; 97; 102; 195; 169])
  = fold_left (fun h b => wrap32 (Z.shiftl h 5 + h + plain_char true b))
      [99; 97; 102; 195; 169] 0 /\
  (true = false \/ Forall (fun b => b < 128) [99; 97; 102; 195; 169] ->
   hash_filename (chars_of_bytes true [99; 97; 102; 195; 169])
   = hash_accumulator [99; 97; 102; 195; 169]) /\
  (forall rest,
     hash_filename (chars_of_bytes true ([99; 97; 102; 195; 169] ++ 0 :: rest))
     = hash_filename (chars_of_bytes true [99; 97; 102; 195; 169])).
Proof.
  apply (hash_filename_is_accumulator true [99; 97; 102; 195; 169]).
  repeat constructor; lia.
Defined.

(** C7 as stated fails where plain [char] is signed: in the name of the
    bytes [c a f 0xC3 0xA9] (UTF-8) the last two enter sign-extended, and the
    digest is not the accumulator over the bytes. *)
Lemma accumulates_bytes_fails :
  hash_filename (chars_of_bytes true [99; 97; 102; 195; 169]) = 121001046 /\
  hash_accumulator [99; 97; 102; 195; 169] = 121009750 /\
  ~ accumulates_bytes true [99; 97; 102; 195; 169].
Proof.
  split; [vm_compute; reflexivity|].
  split; [vm_compute; reflexivity|].
  unfold accumulates_bytes. vm_compute. discriminate.
Qed.

(** With every byte below [0x80], or plain [char] unsigned, the claim holds
    as stated. *)
Lemma hash_filename_bytes (char_is_signed : bool) (bytes : list Z) :
  Forall (fun b => 0 < b < (if char_is_signed then 128 else 256)) bytes ->
  accumulates_bytes char_is_signed bytes.
Proof.
  intros Hb. unfold accumulates_bytes.
  rewrite chars_of_bytes_id.
  - apply hash_filename_loop_fold.
    eapply Forall_impl; [exact Hb|]. simpl. intros b Hlt. lia.
  - destruct char_is_signed; [right|left; reflexivity].
    eapply Forall_impl; [exact Hb|]. simpl. intros b Hlt. lia.
Qed.

Example hash_filename_signed_high_byte :
  hash_filename [plain_char true 233] = 2 ^ 32 - 23 /\
  hash_filename [plain_char false 233] = 233.
Proof. split; reflexivity. Qed.

(** ** Constants *)

Lemma MAX_ENTRIES_PER_BLOCK_eq : MAX_ENTRIES_PER_BLOCK = 15.
Proof. reflexivity. Qed.

Lemma MAX_INDEX_ENTRIES_eq : MAX_INDEX_ENTRIES = 510.
Proof. reflexivity. Qed.

Lemma sizeof_dir_entry_eq : sizeof_dir_entry = 264.
Proof. reflexivity. Qed.

Lemma sizeof_block_header_eq : sizeof_block_header = 12.
Proof. reflexivity. Qed.

Lemma BLOCK_SIZE_eq : BLOCK_SIZE = 4096.
Proof. reflexivity. Qed.

Lemma MAX_FILENAME_eq : MAX_FILENAME = 255.
Proof. reflexivity. Qed.

#[local] Opaque MAX_ENTRIES_PER_BLOCK MAX_INDEX_ENTRIES sizeof_dir_entry
  sizeof_block_header BLOCK_SIZE MAX_FILENAME.

Lemma init_entry_blocks : entry_blocks init_htree_directory = None.
Proof. reflexivity. Qed.

Lemma init_index_blocks : index_blocks init_htree_directory = None.
Proof. reflexivity. Qed.

Lemma init_num_entry_blocks : num_entry_blocks init_htree_directory = 0.
Proof. reflexivity. Qed.

Lemma init_num_index_blocks : num_index_blocks init_htree_directory = 0.
Proof. reflexivity. Qed.

Lemma init_root_header :
  header (root_block init_htree_directory)
  = {| block_type := 1; entry_count := 0;
       free_space := BLOCK_SIZE - sizeof_block_header |}.
Proof. reflexivity. Qed.

#[local] Opaque init_htree_directory.

Ltac constants :=
  rewrite ?MAX_ENTRIES_PER_BLOCK_eq, ?MAX_INDEX_ENTRIES_eq, ?sizeof_dir_entry_eq,
    ?sizeof_block_header_eq, ?BLOCK_SIZE_eq, ?MAX_FILENAME_eq in *.

Ltac run :=
  unfold mbind, M_bind, bind, mret, M_ret, ret, get, fault,
    put_num_entry_blocks, put_entry_blocks in *.

(** ** Reading a represented directory *)

Lemma slots_of_lookup ess junk i es :
  ess !! i = Some es -> (slots_of ess ++ junk) !! i = Some (Some (block_of es)).
Proof.
  intros H. rewrite lookup_app_l.
  - unfold slots_of. rewrite list_lookup_fmap, H. reflexivity.
  - unfold slots_of. rewrite length_fmap. eapply lookup_lt_Some, H.
Qed.

Lemma represents_slots dir ess :
  represents dir ess -> ess <> [] ->
  exists junk, entry_blocks dir = Some (slots_of ess ++ junk).
Proof.
  intros R Hne. destruct (rep_slots _ _ R) as [junk Hj].
  exists junk. destruct (entry_blocks dir) as [slots|]; simpl in Hj.
  - congruence.
  - destruct ess; [congruence|discriminate].
Qed.

Lemma load_represents dir ess i es :
  represents dir ess -> ess !! i = Some es ->
  load_entry_block i dir = Done (block_of es, dir).
Proof.
  intros R Hi.
  destruct (represents_slots dir ess R) as [junk Hs].
  { intros ->. discriminate. }
  unfold load_entry_block. rewrite Hs, (slots_of_lookup _ _ _ _ Hi). reflexivity.
Qed.

Lemma first_room_bound ess : forall i p,
  first_room ess i = Some p -> (i <= p < i + length ess)%nat.
Proof.
  induction ess as [|es ess IH]; intros i p; simpl; [discriminate|].
  destruct (_ <? _).
  - intros [= <-]. lia.
  - intros H. apply IH in H. lia.
Qed.

Lemma first_room_lookup ess : forall i p,
  first_room ess i = Some p ->
  exists es, ess !! (p - i)%nat = Some es /\
             Z.of_nat (length es) < MAX_ENTRIES_PER_BLOCK.
Proof.
  induction ess as [|es ess IH]; intros i p; simpl; [discriminate|].
  destruct (Z.ltb_spec (Z.of_nat (length es)) MAX_ENTRIES_PER_BLOCK).
  - intros [= <-]. exists es. rewrite Nat.sub_diag. auto.
  - intros H'. pose proof (first_room_bound _ _ _ H') as Hb.
    destruct (IH _ _ H') as (es' & Hl & Hlt). exists es'. split; [|exact Hlt].
    replace (p - i)%nat with (S (p - S i)) by lia. exact Hl.
Qed.

Lemma find_entry_block_loop_represents dir ess :
  represents dir ess ->
  forall todo i, (i + todo = length ess)%nat ->
  Bench.find_entry_block_loop i todo dir = Done (first_room (drop i ess) i, dir).
Proof.
  intros R. induction todo as [|todo IH]; intros i Hlen.
  - rewrite drop_ge by lia. reflexivity.
  - destruct (lookup_lt_is_Some_2 ess i) as [es Hes]; [lia|].
    simpl. run. rewrite (load_represents _ _ _ _ R Hes).
    rewrite (drop_S _ _ _ Hes). simpl.
    destruct (_ <? _); [reflexivity|]. apply IH. lia.
Qed.

(** ** Blocks filled in order *)

Lemma max_entries_nat : Z.to_nat MAX_ENTRIES_PER_BLOCK = 15%nat.
Proof. constants. reflexivity. Qed.

Lemma first_room_fulls fulls rest : forall i,
  Forall (fun es : list dir_entry => Z.of_nat (length es) = MAX_ENTRIES_PER_BLOCK) fulls ->
  first_room (fulls ++ rest) i = first_room rest (i + length fulls).
Proof.
  induction fulls as [|es fulls IH]; intros i Hf; simpl.
  - f_equal. lia.
  - inversion Hf as [|? ? Hes Hrest]; subst.
    rewrite Hes, Z.ltb_irrefl, IH by assumption. f_equal. lia.
Qed.

Lemma filled_cases ess :
  filled ess ->
  ess = [] \/
  exists fulls last,
    ess = fulls ++ [last] /\
    Forall (fun es => Z.of_nat (length es) = MAX_ENTRIES_PER_BLOCK) fulls /\
    1 <= Z.of_nat (length last) <= MAX_ENTRIES_PER_BLOCK.
Proof. intros [|fulls last Hf Hl]; [left|right]; eauto. Qed.

Lemma place_nil e : place e [] = [[e]].
Proof. reflexivity. Qed.

Lemma place_room e fulls last :
  Forall (fun es => Z.of_nat (length es) = MAX_ENTRIES_PER_BLOCK) fulls ->
  Z.of_nat (length last) < MAX_ENTRIES_PER_BLOCK ->
  first_room (fulls ++ [last]) 0 = Some (length fulls) /\
  place e (fulls ++ [last]) = fulls ++ [last ++ [e]].
Proof.
  intros Hf Hl.
  assert (Hr : first_room (fulls ++ [last]) 0 = Some (length fulls)).
  { rewrite first_room_fulls by assumption. simpl.
    destruct (Z.ltb_spec (Z.of_nat (length last)) MAX_ENTRIES_PER_BLOCK); [reflexivity|lia]. }
  split; [exact Hr|].
  unfold place. rewrite Hr.
  rewrite alter_app_r_alt by lia. rewrite Nat.sub_diag. reflexivity.
Qed.

Lemma place_full e fulls last :
  Forall (fun es => Z.of_nat (length es) = MAX_ENTRIES_PER_BLOCK) fulls ->
  Z.of_nat (length last) = MAX_ENTRIES_PER_BLOCK ->
  first_room (fulls ++ [last]) 0 = None /\
  place e (fulls ++ [last]) = (fulls ++ [last]) ++ [[e]].
Proof.
  intros Hf Hl.
  assert (Hr : first_room (fulls ++ [last]) 0 = None).
  { rewrite first_room_fulls by assumption. simpl.
    rewrite Hl, Z.ltb_irrefl. reflexivity. }
  split; [exact Hr|]. unfold place. rewrite Hr. reflexivity.
Qed.

Lemma filled_place e ess : filled ess -> filled (place e ess).
Proof.
  intros H. destruct (filled_cases _ H) as [->|(fulls & last & -> & Hf & Hl)].
  - rewrite place_nil. apply (filled_snoc [] [e]); [constructor|].
    simpl. constants. lia.
  - destruct (Z.eq_dec (Z.of_nat (length last)) MAX_ENTRIES_PER_BLOCK) as [Heq|Hne].
    + destruct (place_full e fulls last Hf Heq) as [_ ->].
      apply filled_snoc.
      * apply Forall_app. split; [assumption|]. constructor; [assumption|constructor].
      * simpl. constants. lia.
    + destruct (place_room e fulls last Hf) as [_ ->]; [lia|].
      apply filled_snoc; [assumption|]. rewrite length_app. simpl. lia.
Qed.

Lemma concat_place e ess : filled ess -> concat (place e ess) = concat ess ++ [e].
Proof.
  intros H. destruct (filled_cases _ H) as [->|(fulls & last & -> & Hf & Hl)].
  - reflexivity.
  - destruct (Z.eq_dec (Z.of_nat (length last)) MAX_ENTRIES_PER_BLOCK) as [Heq|Hne].
    + destruct (place_full e fulls last Hf Heq) as [_ ->].
      rewrite concat_app. simpl. reflexivity.
    + destruct (place_room e fulls last Hf) as [_ ->]; [lia|].
      rewrite !concat_app. simpl. rewrite !app_nil_r, app_assoc. reflexivity.
Qed.

Lemma filled_bounds ess i es :
  filled ess -> ess !! i = Some es ->
  1 <= Z.of_nat (length es) <= MAX_ENTRIES_PER_BLOCK /\
  ((S i < length ess)%nat -> Z.of_nat (length es) = MAX_ENTRIES_PER_BLOCK).
Proof.
  intros H Hi. destruct (filled_cases _ H) as [->|(fulls & last & -> & Hf & Hl)].
  - discriminate.
  - rewrite length_app. simpl.
    destruct (decide (i < length fulls)%nat) as [Hlt|Hge].
    + rewrite lookup_app_l in Hi by assumption.
      rewrite Forall_forall in Hf.
      specialize (Hf es (list_elem_of_lookup_2 _ _ _ Hi)). constants. lia.
    + rewrite lookup_app_r in Hi by lia.
      destruct (i - length fulls)%nat eqn:E; simpl in Hi; [|destruct n; discriminate].
      injection Hi as <-. split; [assumption|lia].
Qed.

(** The total number of records fixes the number of blocks. *)
Lemma filled_count ess :
  filled ess ->
  ess = [] \/
  (MAX_ENTRIES_PER_BLOCK * (Z.of_nat (length ess) - 1) < Z.of_nat (length (concat ess))
   /\ Z.of_nat (length (concat ess)) <= MAX_ENTRIES_PER_BLOCK * Z.of_nat (length ess)).
Proof.
  intros H. destruct (filled_cases _ H) as [->|(fulls & last & -> & Hf & Hl)]; [auto|].
  right. rewrite concat_app, !length_app. simpl. rewrite app_nil_r.
  assert (Hc : Z.of_nat (length (concat fulls))
               = MAX_ENTRIES_PER_BLOCK * Z.of_nat (length fulls)).
  { clear Hl H. induction Hf as [|es fulls Hes _ IH]; simpl; [lia|].
    rewrite length_app. lia. }
  lia.
Qed.

(** ** Writing a record into a block with room *)

Lemma block_of_entries_snoc es e :
  Z.of_nat (length es) < MAX_ENTRIES_PER_BLOCK ->
  <[length es := Some e]> (entries (block_of es)) = entries (block_of (es ++ [e])).
Proof.
  intros Hlt. unfold block_of. simpl. rewrite max_entries_nat.
  constants.
  replace (15 - length es)%nat with (S (15 - length (es ++ [e]))).
  2:{ rewrite length_app. simpl. lia. }
  rewrite fmap_app. simpl.
  replace (length es) with (length (Some <$> es) + 0)%nat at 1.
  2:{ rewrite length_fmap. lia. }
  rewrite insert_app_r. simpl. rewrite <- app_assoc. reflexivity.
Qed.

Lemma block_of_snoc es e :
  Z.of_nat (length es) < MAX_ENTRIES_PER_BLOCK ->
  {| header := {| block_type := block_type (header (block_of es));
                  entry_count := wrap32 (entry_count (header (block_of es)) + 1);
                  free_space :=
                    wrap32 (free_space (header (block_of es)) - sizeof_dir_entry) |};
     entries := <[length es := Some e]> (entries (block_of es));
     indices := indices (block_of es) |}
  = block_of (es ++ [e]).
Proof.
  intros Hlt. rewrite block_of_entries_snoc by assumption.
  unfold block_of. simpl. rewrite length_app. simpl.
  constants. f_equal. f_equal.
  - rewrite wrap32_small by lia. lia.
  - rewrite wrap32_small by lia. lia.
Qed.

Lemma length_entries_block_of es :
  Z.of_nat (length es) <= MAX_ENTRIES_PER_BLOCK ->
  length (entries (block_of es)) = 15%nat.
Proof.
  intros Hle. unfold block_of. simpl.
  rewrite length_app, length_fmap, length_replicate, max_entries_nat.
  constants. lia.
Qed.

Lemma slots_of_alter f ess junk p es :
  ess !! p = Some es ->
  <[p := Some (block_of (f es))]> (slots_of ess ++ junk)
  = slots_of (alter f p ess) ++ junk.
Proof.
  intros Hp. pose proof (lookup_lt_Some _ _ _ Hp) as Hlt.
  rewrite insert_app_l by (unfold slots_of; rewrite length_fmap; exact Hlt).
  f_equal. unfold slots_of. apply list_eq. intros j.
  destruct (decide (j = p)) as [->|Hne].
  - rewrite list_lookup_insert_eq by (rewrite length_fmap; exact Hlt).
    rewrite list_lookup_fmap, list_lookup_alter_eq, Hp. reflexivity.
  - rewrite list_lookup_insert_ne by congruence.
    rewrite !list_lookup_fmap, list_lookup_alter_ne by congruence. reflexivity.
Qed.

Lemma write_record_slots dir ess junk p es name inode :
  entry_blocks dir = Some (slots_of ess ++ junk) ->
  ess !! p = Some es ->
  Z.of_nat (length es) < MAX_ENTRIES_PER_BLOCK ->
  write_record p name inode dir
  = Done (tt, set_entry_blocks
                (Some (slots_of (alter (fun es => es ++ [new_dir_entry name inode]) p ess)
                       ++ junk)) dir).
Proof.
  intros Hs Hp Hlt.
  pose proof (lookup_lt_Some _ _ _ Hp) as Hpl.
  unfold write_record, write_entry_block, load_entry_block, store_slot,
    store_entry_block_slot. run.
  rewrite Hs, (slots_of_lookup _ _ _ _ Hp).
  rewrite length_entries_block_of by lia.
  replace (Z.to_nat (entry_count (header (block_of es)))) with (length es)
    by (simpl; lia).
  destruct (decide (length es < 15)%nat) as [_|Hn]; [|constants; lia].
  rewrite Hs, (slots_of_lookup _ _ _ _ Hp).
  rewrite Hs.
  destruct (decide (p < length (slots_of ess ++ junk))%nat) as [_|Hn].
  2:{ exfalso. apply Hn. rewrite length_app. unfold slots_of.
      rewrite length_fmap. lia. }
  rewrite block_of_snoc by assumption.
  rewrite (slots_of_alter (fun es => es ++ [new_dir_entry name inode])) by exact Hp.
  reflexivity.
Qed.

(** ** Allocating an entry block *)

Lemma block_of_nil :
  set_header {| block_type := 3; entry_count := 0;
                free_space := BLOCK_SIZE - sizeof_block_header |}
    {| header := {| block_type := 0; entry_count := 0; free_space := 0 |};
       entries := replicate (Z.to_nat MAX_ENTRIES_PER_BLOCK) None;
       indices := replicate (Z.to_nat MAX_INDEX_ENTRIES) None |}
  = block_of [].
Proof.
  unfold set_header, block_of. simpl.
  rewrite Nat.sub_0_r, Z.mul_0_r, Z.sub_0_r. reflexivity.
Qed.

Lemma length_slots_of ess : length (slots_of ess) = length ess.
Proof. unfold slots_of. apply length_fmap. Qed.

Lemma resize_slots ess junk :
  exists x, resize (S (length ess)) None (slots_of ess ++ junk) = slots_of ess ++ [x].
Proof.
  rewrite resize_app_ge by (unfold slots_of; rewrite length_fmap; lia).
  unfold slots_of at 2. rewrite length_fmap.
  replace (S (length ess) - length ess)%nat with 1%nat by lia.
  destruct junk as [|x junk]; simpl; rewrite ?resize_0; eauto.
Qed.

Lemma slots_of_snoc ess es : slots_of (ess ++ [es]) = slots_of ess ++ [Some (block_of es)].
Proof. unfold slots_of. rewrite fmap_app. reflexivity. Qed.

Lemma add_entry_block_HeapOk dir ess :
  represents dir ess ->
  Z.of_nat (length ess) + 1 < 2 ^ 32 ->
  exists dir1,
    Bench.add_entry_block HeapOk dir = Done (Some (length ess), dir1) /\
    entry_blocks dir1 = Some (slots_of (ess ++ [[]]) ++ []) /\
    num_entry_blocks dir1 = Z.of_nat (length ess) + 1 /\
    root_block dir1 = root_block dir /\
    index_blocks dir1 = index_blocks dir /\
    num_index_blocks dir1 = num_index_blocks dir.
Proof.
  intros R Hb. destruct (rep_slots _ _ R) as [junk Hj].
  destruct (resize_slots ess junk) as [x Hx].
  unfold Bench.add_entry_block, realloc, store_entry_block_slot. run. simpl.
  rewrite (rep_num _ _ R), Hj.
  rewrite (wrap32_small (Z.of_nat (length ess) + 1)) by lia.
  destruct (Z.eqb_spec (Z.of_nat (length ess) + 1) 0) as [?|_]; [lia|].
  simpl.
  replace (Z.to_nat (Z.of_nat (length ess) + 1)) with (S (length ess)) by lia.
  rewrite Hx, block_of_nil.
  replace (Z.of_nat (length ess) + 1 - 1) with (Z.of_nat (length ess)) by lia.
  rewrite wrap32_small by lia. rewrite Nat2Z.id.
  destruct (decide (length ess < length (slots_of ess ++ [x]))%nat) as [_|Hn].
  2:{ exfalso. apply Hn. rewrite length_app, length_slots_of. simpl. lia. }
  eexists. split; [reflexivity|]. simpl.
  repeat split.
  rewrite app_nil_r, slots_of_snoc. f_equal.
  replace (length ess) with (length (slots_of ess) + 0)%nat at 1
    by (unfold slots_of; rewrite length_fmap; lia).
  rewrite insert_app_r. reflexivity.
Qed.

(** A failed [malloc]: the counter is restored, the pointer array was grown
    by one slot that nothing fills. *)
Lemma add_entry_block_MallocNull dir ess :
  represents dir ess ->
  Z.of_nat (length ess) + 1 < 2 ^ 32 ->
  exists dir1,
    Bench.add_entry_block MallocNull dir = Done (None, dir1) /\
    represents dir1 ess.
Proof.
  intros R Hb. destruct (rep_slots _ _ R) as [junk Hj].
  destruct (resize_slots ess junk) as [x Hx].
  unfold Bench.add_entry_block, realloc. run. simpl.
  rewrite (rep_num _ _ R), Hj.
  rewrite (wrap32_small (Z.of_nat (length ess) + 1)) by lia.
  destruct (Z.eqb_spec (Z.of_nat (length ess) + 1) 0) as [?|_]; [lia|].
  simpl.
  replace (Z.to_nat (Z.of_nat (length ess) + 1)) with (S (length ess)) by lia.
  rewrite Hx.
  replace (Z.of_nat (length ess) + 1 - 1) with (Z.of_nat (length ess)) by lia.
  rewrite wrap32_small by (pose proof (rep_bound _ _ R); lia).
  eexists. split; [reflexivity|].
  destruct R. constructor; simpl; try assumption; eauto.
Qed.

(** A failed [realloc]: the counter stays incremented and the pointer array
    is overwritten with NULL. *)
Lemma add_entry_block_ReallocNull dir :
  wrap32 (num_entry_blocks dir + 1) <> 0 ->
  Bench.add_entry_block ReallocNull dir
  = Done (None, set_entry_blocks None
                  (set_num_entry_blocks (wrap32 (num_entry_blocks dir + 1)) dir)).
Proof.
  intros Hn. unfold Bench.add_entry_block, realloc. run. simpl.
  destruct (Z.eqb_spec (wrap32 (num_entry_blocks dir + 1)) 0); [contradiction|].
  reflexivity.
Qed.

(** ** [find_entry_block] and [insert_file] on a represented directory *)

Lemma length_strncpy n : forall src, length (strncpy src n) = n.
Proof.
  induction n as [|n IH]; intros src; simpl; [reflexivity|].
  destruct src as [|c src]; simpl; [rewrite IH; reflexivity|].
  destruct (c =? 0); simpl; rewrite IH; reflexivity.
Qed.

Lemma names_place (P : dir_entry -> Prop) e ess :
  Forall (Forall P) ess -> P e -> Forall (Forall P) (place e ess).
Proof.
  intros Hn He. unfold place. destruct (first_room ess 0) as [p|].
  - apply Forall_alter; [assumption|]. intros es _ Hes.
    apply Forall_app. split; [assumption|]. constructor; [assumption|constructor].
  - apply Forall_app. split; [assumption|]. repeat constructor. assumption.
Qed.

Lemma find_entry_block_room dir ess heap hash p :
  represents dir ess -> first_room ess 0 = Some p ->
  Bench.find_entry_block heap hash dir = Done (Some p, dir).
Proof.
  intros R Hp. unfold Bench.find_entry_block. run.
  rewrite (rep_num _ _ R), Nat2Z.id.
  rewrite (find_entry_block_loop_represents _ _ R) by lia.
  rewrite drop_0, Hp. reflexivity.
Qed.

Lemma find_entry_block_full dir ess heap hash :
  represents dir ess -> first_room ess 0 = None ->
  Bench.find_entry_block heap hash dir = Bench.add_entry_block heap dir.
Proof.
  intros R Hp. unfold Bench.find_entry_block. run.
  rewrite (rep_num _ _ R), Nat2Z.id.
  rewrite (find_entry_block_loop_represents _ _ R) by lia.
  rewrite drop_0, Hp. reflexivity.
Qed.

Lemma insert_file_unfold heap name inode :
  Bench.insert_file heap name inode
  = (found ← Bench.find_entry_block heap (hash_filename name);
     match found with
     | None => ret tt
     | Some p => write_record p name inode
     end).
Proof. reflexivity. Qed.

Lemma new_dir_entry_name name inode :
  length (de_name (new_dir_entry name inode)) = Z.to_nat MAX_FILENAME.
Proof. simpl. apply length_strncpy. Qed.

(** With room in some block nothing is allocated. *)
Lemma insert_file_room dir ess heap name inode p :
  represents dir ess -> first_room ess 0 = Some p ->
  exists dir',
    Bench.insert_file heap name inode dir = Done (tt, dir') /\
    represents dir' (place (new_dir_entry name inode) ess).
Proof.
  intros R Hp.
  destruct (first_room_lookup _ _ _ Hp) as (es & Hes & Hlt).
  rewrite Nat.sub_0_r in Hes.
  destruct (represents_slots _ _ R) as [junk Hs].
  { intros ->. discriminate. }
  rewrite insert_file_unfold. run.
  rewrite (find_entry_block_room _ _ _ _ _ R Hp).
  rewrite (write_record_slots _ _ _ _ _ _ _ Hs Hes Hlt).
  eexists. split; [reflexivity|].
  assert (Hplace : place (new_dir_entry name inode) ess
                   = alter (fun es => es ++ [new_dir_entry name inode]) p ess).
  { unfold place. rewrite Hp. reflexivity. }
  rewrite <- Hplace.
  destruct R. constructor; simpl; try assumption.
  - rewrite Hplace, length_alter. assumption.
  - rewrite Hplace, length_alter. assumption.
  - eauto.
  - apply filled_place. assumption.
  - apply names_place; [assumption|apply new_dir_entry_name].
Qed.

(** With every block full (or none yet) and the heap answering. *)
Lemma insert_file_full_HeapOk dir ess name inode :
  represents dir ess -> first_room ess 0 = None ->
  Z.of_nat (length ess) + 1 < 2 ^ 32 ->
  exists dir',
    Bench.insert_file HeapOk name inode dir = Done (tt, dir') /\
    represents dir' (place (new_dir_entry name inode) ess).
Proof.
  intros R Hp Hb.
  destruct (add_entry_block_HeapOk _ _ R Hb)
    as (dir1 & Hadd & Hs1 & Hn1 & Hr1 & Hi1 & Hni1).
  rewrite insert_file_unfold. run.
  rewrite (find_entry_block_full _ _ _ _ R Hp), Hadd.
  assert (Hl : (ess ++ [[]]) !! length ess = Some (@nil dir_entry)).
  { rewrite lookup_app_r by lia. rewrite Nat.sub_diag. reflexivity. }
  rewrite (write_record_slots _ _ _ _ _ _ _ Hs1 Hl) by (simpl; constants; lia).
  eexists. split; [reflexivity|].
  rewrite alter_app_r_alt by lia. rewrite Nat.sub_diag. simpl.
  assert (Hplace : place (new_dir_entry name inode) ess
                   = ess ++ [[new_dir_entry name inode]]).
  { unfold place. rewrite Hp. reflexivity. }
  rewrite <- Hplace.
  destruct R. constructor; simpl; try congruence.
  - rewrite Hplace, length_app. simpl. lia.
  - rewrite Hplace, length_app. simpl. lia.
  - eauto.
  - apply filled_place. assumption.
  - apply names_place; [assumption|apply new_dir_entry_name].
Qed.

Lemma insert_file_full_MallocNull dir ess name inode :
  represents dir ess -> first_room ess 0 = None ->
  Z.of_nat (length ess) + 1 < 2 ^ 32 ->
  exists dir',
    Bench.insert_file MallocNull name inode dir = Done (tt, dir') /\
    represents dir' ess.
Proof.
  intros R Hp Hb.
  destruct (add_entry_block_MallocNull _ _ R Hb) as (dir1 & Hadd & R1).
  rewrite insert_file_unfold. run.
  rewrite (find_entry_block_full _ _ _ _ R Hp), Hadd.
  eexists. split; [reflexivity|assumption].
Qed.

Lemma insert_file_full_ReallocNull dir ess name inode :
  represents dir ess -> first_room ess 0 = None ->
  Z.of_nat (length ess) + 1 < 2 ^ 32 ->
  Bench.insert_file ReallocNull name inode dir
  = Done (tt, set_entry_blocks None
                (set_num_entry_blocks (Z.of_nat (length ess) + 1) dir)).
Proof.
  intros R Hp Hb.
  rewrite insert_file_unfold. run.
  rewrite (find_entry_block_full _ _ _ _ R Hp).
  rewrite add_entry_block_ReallocNull; rewrite (rep_num _ _ R);
    rewrite wrap32_small by lia; [reflexivity|lia].
Qed.

(** The counter cannot pass [2^32 - 1]: the next allocation is a fault. *)
Lemma add_entry_block_wraps dir heap :
  wrap32 (num_entry_blocks dir + 1) = 0 ->
  Bench.add_entry_block heap dir = Fault.
Proof.
  intros Hw. unfold Bench.add_entry_block, realloc. run. simpl.
  rewrite Hw. reflexivity.
Qed.

Lemma insert_file_full_wraps dir ess heap name inode :
  represents dir ess -> first_room ess 0 = None ->
  ~ Z.of_nat (length ess) + 1 < 2 ^ 32 ->
  Bench.insert_file heap name inode dir = Fault.
Proof.
  intros R Hp Hb. pose proof (rep_bound _ _ R) as Hlt.
  rewrite insert_file_unfold. run.
  rewrite (find_entry_block_full _ _ _ _ R Hp).
  rewrite add_entry_block_wraps; [reflexivity|].
  rewrite (rep_num _ _ R).
  replace (Z.of_nat (length ess) + 1) with (2 ^ 32) by lia. reflexivity.
Qed.

(** ** The shape of every reachable directory *)

Lemma represents_init : represents init_htree_directory [].
Proof.
  constructor.
  - reflexivity.
  - apply init_index_blocks.
  - apply init_num_index_blocks.
  - apply init_num_entry_blocks.
  - simpl. lia.
  - exists []. rewrite init_entry_blocks. reflexivity.
  - constructor.
  - constructor.
Qed.

Lemma broken_load dir i : broken dir -> load_entry_block i dir = Fault.
Proof. intros [Hn _]. unfold load_entry_block. rewrite Hn. reflexivity. Qed.

Lemma broken_insert_file dir heap name inode :
  broken dir -> Bench.insert_file heap name inode dir = Fault.
Proof.
  intros Hb. rewrite insert_file_unfold. unfold Bench.find_entry_block. run.
  destruct (Z.to_nat (num_entry_blocks dir)) as [|k] eqn:Hk.
  - destruct Hb. lia.
  - simpl. run. rewrite (broken_load _ _ Hb). reflexivity.
Qed.

Lemma insert_file_represents dir ess heap name inode dir' :
  represents dir ess ->
  Bench.insert_file heap name inode dir = Done (tt, dir') ->
  represents dir' (place (new_dir_entry name inode) ess) \/
  (heap = MallocNull /\ first_room ess 0 = None /\ represents dir' ess) \/
  (heap = ReallocNull /\ first_room ess 0 = None /\ broken dir' /\
   num_entry_blocks dir' = num_entry_blocks dir + 1).
Proof.
  intros R Hrun.
  destruct (first_room ess 0) as [p|] eqn:Hp.
  - destruct (insert_file_room _ _ heap name inode _ R Hp) as (d & Hd & Rd).
    left. congruence.
  - destruct (Z_lt_dec (Z.of_nat (length ess) + 1) (2 ^ 32)) as [Hb|Hb].
    2:{ rewrite (insert_file_full_wraps _ _ _ _ _ R Hp Hb) in Hrun. discriminate. }
    destruct heap.
    + destruct (insert_file_full_HeapOk _ _ name inode R Hp Hb) as (d & Hd & Rd).
      left. congruence.
    + rewrite (insert_file_full_ReallocNull _ _ _ _ R Hp Hb) in Hrun.
      injection Hrun as <-. right. right.
      repeat split; simpl; rewrite ?(rep_num _ _ R); lia.
    + destruct (insert_file_full_MallocNull _ _ name inode R Hp Hb) as (d & Hd & Rd).
      right. left. split; [reflexivity|]. split; [reflexivity|]. congruence.
Qed.

Lemma reachable_shape dir :
  BenchRun.reachable dir -> (exists ess, represents dir ess) \/ broken dir.
Proof.
  induction 1 as [|dir heap name inode dir' _ IH Hrun].
  - left. exists []. apply represents_init.
  - destruct IH as [[ess R]|Hb].
    + destruct (insert_file_represents _ _ _ _ _ _ R Hrun)
        as [R'|[(_ & _ & R')|(_ & _ & Hb' & _)]]; eauto.
    + rewrite (broken_insert_file _ _ _ _ Hb) in Hrun. discriminate.
Qed.

Lemma healthy_not_broken dir : healthy dir -> broken dir -> False.
Proof. intros Hh [Hn Hlt]. specialize (Hh Hn). lia. Qed.

Lemma represents_healthy dir ess : represents dir ess -> healthy dir.
Proof.
  intros R Hn. destruct (rep_slots _ _ R) as [junk Hj].
  rewrite Hn in Hj. simpl in Hj. rewrite (rep_num _ _ R).
  destruct ess; [reflexivity|discriminate].
Qed.

Lemma reachable_represents dir :
  BenchRun.reachable dir -> healthy dir -> exists ess, represents dir ess.
Proof.
  intros Hr Hh. destruct (reachable_shape _ Hr) as [?|Hb]; [assumption|].
  destruct (healthy_not_broken _ Hh Hb).
Qed.

(** ** The implementation file against the benchmark file *)

Lemma Impl_find_entry_block_loop todo : forall i dir,
  Impl.find_entry_block_loop i todo dir = Bench.find_entry_block_loop i todo dir.
Proof.
  induction todo as [|todo IH]; intros i dir; simpl; [reflexivity|].
  run. destruct (load_entry_block i dir) as [[block dir1]|]; [|reflexivity].
  destruct (_ <? _); [reflexivity|apply IH].
Qed.

Lemma Impl_add_entry_block heap dir r :
  Impl.add_entry_block heap dir = Done r ->
  Bench.add_entry_block HeapOk dir = Done (Some (fst r), snd r).
Proof.
  unfold Impl.add_entry_block, Bench.add_entry_block, realloc,
    store_entry_block_slot. run. simpl.
  destruct (wrap32 (num_entry_blocks dir + 1) =? 0); [discriminate|].
  destruct heap; simpl; try discriminate.
  destruct (decide _); [|discriminate].
  intros [= <-]. reflexivity.
Qed.

Lemma Impl_insert_file heap name inode dir r :
  Impl.insert_file heap name inode dir = Done r ->
  Bench.insert_file HeapOk name inode dir = Done r.
Proof.
  rewrite insert_file_unfold.
  change (Impl.insert_file heap name inode)
    with (p ← Impl.find_entry_block heap (hash_filename name);
          write_record p name inode).
  unfold Impl.find_entry_block, Bench.find_entry_block. run.
  rewrite Impl_find_entry_block_loop.
  destruct (Bench.find_entry_block_loop _ _ dir) as [[[p|] dir1]|];
    [tauto| |discriminate].
  destruct (Impl.add_entry_block heap dir1) as [[p dir2]|] eqn:Hadd;
    [|discriminate].
  rewrite (Impl_add_entry_block _ _ _ Hadd). simpl. tauto.
Qed.

Lemma Impl_reachable_represents dir :
  ImplRun.reachable dir -> exists ess, represents dir ess.
Proof.
  induction 1 as [|dir heap name inode dir' _ [ess R] Hrun].
  - exists []. apply represents_init.
  - apply Impl_insert_file in Hrun.
    destruct (insert_file_represents _ _ _ _ _ _ R Hrun)
      as [R'|[(? & _)|(? & _)]]; [eauto|discriminate|discriminate].
Qed.

Lemma Impl_reachable_Bench dir : ImplRun.reachable dir -> BenchRun.reachable dir.
Proof.
  induction 1 as [|dir heap name inode dir' _ IH Hrun].
  - constructor.
  - econstructor; [exact IH|]. eapply Impl_insert_file, Hrun.
Qed.

(** ** What a represented directory shows *)

Lemma written_somes {A} (l : list A) rest :
  written (Z.of_nat (length l)) ((Some <$> l) ++ rest) = l.
Proof.
  unfold written. rewrite Nat2Z.id.
  rewrite take_app_length' by (rewrite length_fmap; reflexivity).
  induction l as [|x l IH]; simpl; [reflexivity|]. f_equal. exact IH.
Qed.

Lemma slots_of_somes ess : slots_of ess = Some <$> (block_of <$> ess).
Proof. unfold slots_of. rewrite <- list_fmap_compose. reflexivity. Qed.

Lemma represents_entry_blocks dir ess :
  represents dir ess -> directory_entry_blocks dir = block_of <$> ess.
Proof.
  intros R. destruct (rep_slots _ _ R) as [junk Hj].
  unfold directory_entry_blocks. rewrite Hj, (rep_num _ _ R), slots_of_somes.
  rewrite <- (length_fmap block_of ess). apply written_somes.
Qed.

Lemma block_records_block_of es : block_records (block_of es) = es.
Proof. unfold block_records, block_of. simpl. apply written_somes. Qed.

Lemma represents_records dir ess :
  represents dir ess -> directory_records dir = concat ess.
Proof.
  intros R. unfold directory_records. rewrite (represents_entry_blocks _ _ R).
  assert (H : block_records <$> (block_of <$> ess) = ess).
  { clear R. induction ess as [|es ess IH]; [reflexivity|].
    rewrite !fmap_cons, block_records_block_of, IH. reflexivity. }
  rewrite H. reflexivity.
Qed.

Lemma represents_index_blocks dir ess :
  represents dir ess -> directory_index_blocks dir = [].
Proof.
  intros R. unfold directory_index_blocks.
  rewrite (rep_index_blocks _ _ R), (rep_num_index _ _ R). reflexivity.
Qed.

Lemma represents_block_at dir ess i :
  represents dir ess -> block_at dir i = block_of <$> ess !! i.
Proof.
  intros R. unfold block_at.
  destruct (ess !! i) as [es|] eqn:Hi.
  - destruct (represents_slots _ _ R) as [junk Hs].
    { intros ->. discriminate. }
    rewrite Hs, (rep_num _ _ R).
    pose proof (lookup_lt_Some _ _ _ Hi).
    destruct (decide _); [|lia].
    rewrite (slots_of_lookup _ _ _ _ Hi). reflexivity.
  - pose proof (proj1 (lookup_ge_None _ _) Hi).
    destruct (entry_blocks dir); [|reflexivity].
    rewrite (rep_num _ _ R). destruct (decide _); [lia|reflexivity].
Qed.

Lemma represents_total dir ess :
  represents dir ess ->
  total_entries (stats dir) = Z.of_nat (length (concat ess)).
Proof.
  intros R. unfold stats. simpl. rewrite (represents_entry_blocks _ _ R).
  clear R. induction ess as [|es ess IH]; [reflexivity|].
  rewrite !fmap_cons. cbn [foldr concat]. rewrite IH, length_app. simpl. lia.
Qed.

Lemma within_capacity_block_of es :
  Z.of_nat (length es) <= MAX_ENTRIES_PER_BLOCK -> within_capacity (block_of es).
Proof.
  intros Hle. unfold within_capacity, record_size, capacity_for. simpl.
  constants. lia.
Qed.

Lemma within_capacity_root : within_capacity (root_block init_htree_directory).
Proof.
  unfold within_capacity, record_size, capacity_for. rewrite init_root_header.
  simpl. constants. lia.
Qed.

(** ** [find_file] *)

Lemma first_match_app name recs1 recs2 :
  first_match name (recs1 ++ recs2)
  = match first_match name recs1 with
    | Done None => first_match name recs2
    | r => r
    end.
Proof.
  induction recs1 as [|e recs1 IH]; simpl; [reflexivity|].
  destruct (strcmp_is0 (de_name e) name) as [[|]|]; [reflexivity|exact IH|reflexivity].
Qed.

Lemma load_slot_block_of es j e dir :
  es !! j = Some e -> load_slot (entries (block_of es)) j dir = Done (e, dir).
Proof.
  intros Hj. unfold load_slot, block_of. simpl.
  rewrite lookup_app_l by (rewrite length_fmap; eapply lookup_lt_Some, Hj).
  rewrite list_lookup_fmap, Hj. reflexivity.
Qed.

Lemma find_file_entries_block_of es name dir : forall todo j,
  (j + todo = length es)%nat ->
  Bench.find_file_entries (block_of es) name j todo dir
  = lift (first_match name (drop j es)) dir.
Proof.
  induction todo as [|todo IH]; intros j Hlen.
  - rewrite drop_ge by lia. reflexivity.
  - destruct (lookup_lt_is_Some_2 es j) as [e He]; [lia|].
    simpl. run. rewrite (load_slot_block_of _ _ _ _ He).
    rewrite (drop_S _ _ _ He). simpl.
    destruct (strcmp_is0 (de_name e) name) as [[|]|]; try reflexivity.
    apply IH. lia.
Qed.

Lemma find_file_blocks_represents dir ess name :
  represents dir ess ->
  forall todo i, (i + todo = length ess)%nat ->
  Bench.find_file_blocks name i todo dir
  = lift (first_match name (concat (drop i ess))) dir.
Proof.
  intros R. induction todo as [|todo IH]; intros i Hlen.
  - rewrite drop_ge by lia. reflexivity.
  - destruct (lookup_lt_is_Some_2 ess i) as [es Hes]; [lia|].
    simpl. run. rewrite (load_represents _ _ _ _ R Hes).
    replace (Z.to_nat (entry_count (header (block_of es)))) with (length es)
      by (simpl; lia).
    rewrite find_file_entries_block_of by lia.
    rewrite (drop_S _ _ _ Hes), drop_0. simpl. rewrite first_match_app.
    unfold lift at 1.
    destruct (first_match name es) as [[e|]|]; try reflexivity.
    apply IH. lia.
Qed.

Lemma find_file_represents dir ess name :
  represents dir ess ->
  Bench.find_file name dir = lift (first_match name (concat ess)) dir.
Proof.
  intros R. unfold Bench.find_file. run.
  rewrite (rep_num _ _ R), Nat2Z.id.
  rewrite (find_file_blocks_represents _ _ _ R) by lia.
  rewrite drop_0. reflexivity.
Qed.

(** [find_file] writes nothing, whatever the directory. *)
Lemma load_entry_block_frame i dir block dir' :
  load_entry_block i dir = Done (block, dir') -> dir' = dir.
Proof.
  unfold load_entry_block. destruct (entry_blocks dir) as [slots|]; [|discriminate].
  destruct (slots !! i) as [[b|]|]; try discriminate. congruence.
Qed.

Lemma load_slot_frame {A} (slots : list (option A)) j dir x dir' :
  load_slot slots j dir = Done (x, dir') -> dir' = dir.
Proof.
  unfold load_slot. destruct (slots !! j) as [[y|]|]; try discriminate.
  unfold ret. congruence.
Qed.

Lemma find_file_entries_frame block name : forall todo j dir r dir',
  Bench.find_file_entries block name j todo dir = Done (r, dir') -> dir' = dir.
Proof.
  induction todo as [|todo IH]; intros j dir r dir'; simpl; run.
  - congruence.
  - destruct (load_slot (entries block) j dir) as [[e dir1]|] eqn:Hl; [|discriminate].
    apply load_slot_frame in Hl. subst dir1.
    destruct (strcmp_is0 (de_name e) name) as [[|]|]; try discriminate.
    + congruence.
    + apply IH.
Qed.

Lemma find_file_blocks_frame name : forall todo i dir r dir',
  Bench.find_file_blocks name i todo dir = Done (r, dir') -> dir' = dir.
Proof.
  induction todo as [|todo IH]; intros i dir r dir'; simpl; run.
  - congruence.
  - destruct (load_entry_block i dir) as [[block dir1]|] eqn:Hl; [|discriminate].
    apply load_entry_block_frame in Hl. subst dir1.
    destruct (Bench.find_file_entries block name 0 _ dir) as [[found dir2]|] eqn:He;
      [|discriminate].
    apply find_file_entries_frame in He. subst dir2.
    destruct found as [e|].
    + congruence.
    + apply IH.
Qed.

Lemma find_file_frame_any name dir r dir' :
  Bench.find_file name dir = Done (r, dir') -> dir' = dir.
Proof. unfold Bench.find_file. run. apply find_file_blocks_frame. Qed.

(** ** Names against stored names *)

Lemma strlen_nonneg s : 0 <= strlen s.
Proof.
  induction s as [|c s IH]; simpl; [lia|]. destruct (c =? 0); lia.
Qed.

(** A name shorter than the array is stored with its terminator and compares
    equal to itself. *)
Lemma strcmp_strncpy n : forall name,
  strlen name < Z.of_nat n -> strcmp_is0 (strncpy name n) name = Done true.
Proof.
  induction n as [|n IH]; intros name Hlen.
  - pose proof (strlen_nonneg name). lia.
  - destruct name as [|c name]; simpl; [reflexivity|].
    simpl in Hlen.
    destruct (Z.eqb_spec c 0) as [->|Hc]; simpl; [reflexivity|].
    rewrite Z.eqb_refl. destruct (Z.eqb_spec c 0); [contradiction|].
    apply IH. lia.
Qed.

(** Against a name shorter than the array the comparison stays inside it. *)
Lemma strcmp_defined buf : forall name,
  strlen name < Z.of_nat (length buf) -> exists b, strcmp_is0 buf name = Done b.
Proof.
  induction buf as [|b buf IH]; intros name Hlen.
  - pose proof (strlen_nonneg name). simpl in Hlen. lia.
  - simpl. destruct (Z.eqb_spec b (hd 0 name)) as [Heq|_]; [|eauto].
    destruct (Z.eqb_spec b 0) as [_|Hb]; [eauto|].
    apply IH. destruct name as [|c name]; simpl in *; [congruence|].
    subst c. destruct (Z.eqb_spec b 0); [contradiction|]. lia.
Qed.

Lemma first_match_defined name recs :
  strlen name < MAX_FILENAME ->
  Forall (fun e => length (de_name e) = Z.to_nat MAX_FILENAME) recs ->
  exists r, first_match name recs = Done r.
Proof.
  intros Hlen. induction 1 as [|e recs He _ IH]; simpl; [eauto|].
  destruct (strcmp_defined (de_name e) name) as [b Hb].
  { rewrite He. constants. lia. }
  rewrite Hb. destruct b; eauto.
Qed.

Lemma represents_names dir ess :
  represents dir ess ->
  Forall (fun e => length (de_name e) = Z.to_nat MAX_FILENAME) (concat ess).
Proof. intros R. apply Forall_concat, (rep_names _ _ R). Qed.

(** ** Runs *)

Lemma Bench_reachable_run reqs : forall dir dir',
  BenchRun.reachable dir ->
  BenchRun.insert_files reqs dir = Done (tt, dir') ->
  BenchRun.reachable dir'.
Proof.
  induction reqs as [|rq reqs IH]; intros dir dir' Hr; simpl; run.
  - intros [= <-]. exact Hr.
  - destruct (Bench.insert_file _ _ _ dir) as [[[] dir1]|] eqn:H1; [|discriminate].
    apply IH. econstructor; eassumption.
Qed.

Lemma Bench_reachable_dir_after reqs : BenchRun.reachable (BenchRun.dir_after reqs).
Proof.
  unfold BenchRun.dir_after.
  destruct (BenchRun.insert_files reqs init_htree_directory) as [[[] dir]|] eqn:H.
  - eapply Bench_reachable_run; [constructor|exact H].
  - constructor.
Qed.

Lemma Impl_reachable_run reqs : forall dir dir',
  ImplRun.reachable dir ->
  ImplRun.insert_files reqs dir = Done (tt, dir') ->
  ImplRun.reachable dir'.
Proof.
  induction reqs as [|rq reqs IH]; intros dir dir' Hr; simpl; run.
  - intros [= <-]. exact Hr.
  - destruct (Impl.insert_file _ _ _ dir) as [[[] dir1]|] eqn:H1; [|discriminate].
    apply IH. econstructor; eassumption.
Qed.

Lemma Impl_reachable_dir_after reqs : ImplRun.reachable (ImplRun.dir_after reqs).
Proof.
  unfold ImplRun.dir_after.
  destruct (ImplRun.insert_files reqs init_htree_directory) as [[[] dir]|] eqn:H.
  - eapply Impl_reachable_run; [constructor|exact H].
  - constructor.
Qed.

Lemma insert_file_HeapOk_total dir ess name inode :
  represents dir ess ->
  num_entry_blocks dir < 2 ^ 32 - 1 ->
  exists dir',
    Bench.insert_file HeapOk name inode dir = Done (tt, dir') /\
    represents dir' (place (new_dir_entry name inode) ess).
Proof.
  intros R Hb. rewrite (rep_num _ _ R) in Hb.
  destruct (first_room ess 0) as [p|] eqn:Hp.
  - eapply insert_file_room; eassumption.
  - apply insert_file_full_HeapOk; [assumption|assumption|lia].
Qed.

(** * Lookup *)

(** C2, as the code has it.  On every directory reached without a failed
    [realloc], [find_file] goes through the entry blocks in order, block 0
    first, and through the records of each in slot order; it returns the
    first record whose stored name compares equal to [name], whichever
    block holds it, and NULL only when no record of any block does. *)
Theorem find_file_first_match (dir : htree_directory) (name : list Z) :
  BenchRun.reachable dir ->
  healthy dir ->
  Bench.find_file name dir = lift (first_match name (directory_records dir)) dir.
Proof.
  intros Hr Hh. destruct (reachable_represents _ Hr Hh) as [ess R].
  rewrite (represents_records _ _ R). apply find_file_represents, R.
Qed.

(** C10. [find_file] leaves the directory as it is: whenever it returns,
    the directory after the call is the directory before it, block for
    block; and on a directory reached without a failed [realloc] it does
    return for every name that fits the name array. *)
Theorem find_file_frame (dir : htree_directory) (name : list Z) :
  (forall r dir', Bench.find_file name dir = Done (r, dir') -> dir' = dir) /\
  (BenchRun.reachable dir -> healthy dir -> strlen name < MAX_FILENAME ->
   exists r, Bench.find_file name dir = Done (r, dir)).
Proof.
  split.
  - intros r dir'. apply find_file_frame_any.
  - intros Hr Hh Hlen. destruct (reachable_represents _ Hr Hh) as [ess R].
    rewrite (find_file_represents _ _ _ R).
    destruct (first_match_defined name (concat ess) Hlen (represents_names _ _ R))
      as [r Hm].
    exists r. rewrite Hm. reflexivity.
Qed.

(** * Insertion then lookup *)

(** C1, as the code has it.  On a directory reached without a failed
    [realloc], for a name of fewer than [MAX_FILENAME] chars, an insertion
    that gets its memory stores the record: the records of the directory
    are those it held, unchanged and in their order, and behind them the new
    record, which carries the inode and a name that compares equal to the
    inserted one.  If no stored record carried the name, [find_file] then
    returns a record with the inserted inode; if one did, [find_file] goes
    on returning that earlier record. *)
Theorem insert_then_find (dir : htree_directory) (name : list Z) (inode : Z) :
  BenchRun.reachable dir ->
  healthy dir ->
  num_entry_blocks dir < 2 ^ 32 - 1 ->
  strlen name < MAX_FILENAME ->
  exists dir',
    Bench.insert_file HeapOk name inode dir = Done (tt, dir') /\
    directory_records dir' = directory_records dir ++ [new_dir_entry name inode] /\
    de_inode (new_dir_entry name inode) = inode /\
    strcmp_is0 (de_name (new_dir_entry name inode)) name = Done true /\
    (Bench.find_file name dir = Done (None, dir) ->
     exists e, Bench.find_file name dir' = Done (Some e, dir') /\
               de_inode e = inode) /\
    (forall e0, Bench.find_file name dir = Done (Some e0, dir) ->
                Bench.find_file name dir' = Done (Some e0, dir')).
Proof.
  intros Hr Hh Hb Hlen.
  destruct (reachable_represents _ Hr Hh) as [ess R].
  destruct (insert_file_HeapOk_total _ _ name inode R Hb) as (dir' & Hins & R').
  exists dir'. split; [exact Hins|].
  split.
  { rewrite (represents_records _ _ R'), (represents_records _ _ R).
    apply (concat_place _ _ (rep_filled _ _ R)). }
  split; [reflexivity|].
  split; [simpl; apply strcmp_strncpy; constants; lia|].
  rewrite (find_file_represents _ _ _ R), (find_file_represents _ _ _ R').
  rewrite (concat_place _ _ (rep_filled _ _ R)), first_match_app.
  unfold lift.
  destruct (first_match name (concat ess)) as [[e|]|]; (split; [intros Hnone|intros e0 Hsome]);
    try discriminate.
  - injection Hsome as <-. reflexivity.
  - exists (new_dir_entry name inode). split; [|reflexivity].
    simpl. rewrite strcmp_strncpy by (constants; lia). reflexivity.
Qed.

Lemma insert_then_find_witness :
  exists dir',
    Bench.insert_file HeapOk (chars "file2.txt") 1002
      (BenchRun.dir_after [insert "file1.txt" 1001]) = Done (tt, dir') /\
    directory_records dir'
    = directory_records (BenchRun.dir_after [insert "file1.txt" 1001])
      ++ [new_dir_entry (chars "file2.txt") 1002] /\
    de_inode (new_dir_entry (chars "file2.txt") 1002) = 1002 /\
    strcmp_is0 (de_name (new_dir_entry (chars "file2.txt") 1002)) (chars "file2.txt")
    = Done true /\
    (Bench.find_file (chars "file2.txt") (BenchRun.dir_after [insert "file1.txt" 1001])
     = Done (None, BenchRun.dir_after [insert "file1.txt" 1001]) ->
     exists e, Bench.find_file (chars "file2.txt") dir' = Done (Some e, dir') /\
               de_inode e = 1002) /\
    (forall e0,
       Bench.find_file (chars "file2.txt") (BenchRun.dir_after [insert "file1.txt" 1001])
       = Done (Some e0, BenchRun.dir_after [insert "file1.txt" 1001]) ->
       Bench.find_file (chars "file2.txt") dir' = Done (Some e0, dir')).
Proof.
  apply (insert_then_find (BenchRun.dir_after [insert "file1.txt" 1001])
           (chars "file2.txt") 1002).
  - apply Bench_reachable_dir_after.
  - intros Hnull. vm_compute in Hnull. discriminate.
  - vm_compute. reflexivity.
  - vm_compute. reflexivity.
Defined.

(** A name of exactly [MAX_FILENAME] chars fills the name array and leaves
    no room for the terminator: the comparison of the lookup runs off the
    array. *)
Example find_file_full_length_name :
  strlen (replicate 255 120) = MAX_FILENAME /\
  returned ((Bench.insert_file HeapOk (replicate 255 120) 7 ;;
             Bench.find_file (replicate 255 120)) init_htree_directory) = Fault.
Proof. split; vm_compute; reflexivity. Qed.

(** C1 as stated fails on a name that is stored already: the record of the
    first insertion answers, with the first inode. *)
Lemma round_trip_duplicate_name :
  BenchRun.reachable (BenchRun.dir_after [insert "a" 1001]) /\
  strlen (chars "a") <= MAX_FILENAME /\
  Bench.find_file (chars "a") (BenchRun.dir_after [insert "a" 1001; insert "a" 1002])
  = Done (Some (new_dir_entry (chars "a") 1001),
          BenchRun.dir_after [insert "a" 1001; insert "a" 1002]) /\
  ~ round_trip (BenchRun.dir_after [insert "a" 1001]) (chars "a") 1002.
Proof.
  assert (F : Bench.find_file (chars "a")
                (BenchRun.dir_after [insert "a" 1001; insert "a" 1002])
              = Done (Some (new_dir_entry (chars "a") 1001),
                      BenchRun.dir_after [insert "a" 1001; insert "a" 1002]))
    by (vm_compute; reflexivity).
  split; [apply Bench_reachable_dir_after|].
  split; [vm_compute; discriminate|].
  split; [exact F|].
  intros H.
  destruct (H (BenchRun.dir_after [insert "a" 1001; insert "a" 1002]))
    as (e & Hfind & Hinode).
  { vm_compute. reflexivity. }
  rewrite F in Hfind. injection Hfind as <-.
  vm_compute in Hinode. discriminate.
Qed.

Lemma find_file_first_match_witness :
  Bench.find_file (chars "file2.txt")
    (BenchRun.dir_after [insert "file1.txt" 1001; insert "file2.txt" 1002])
  = lift (first_match (chars "file2.txt")
            (directory_records
               (BenchRun.dir_after [insert "file1.txt" 1001; insert "file2.txt" 1002])))
      (BenchRun.dir_after [insert "file1.txt" 1001; insert "file2.txt" 1002]).
Proof.
  apply (find_file_first_match
           (BenchRun.dir_after [insert "file1.txt" 1001; insert "file2.txt" 1002])
           (chars "file2.txt")).
  - apply Bench_reachable_dir_after.
  - intros Hnull. vm_compute in Hnull. discriminate.
Defined.

(** C2 as stated fails once a second block exists: the block with room is
    block 1 and holds no record named "a", yet [find_file] returns the
    record of block 0. *)
Lemma scans_routed_block_only_fails :
  BenchRun.reachable
    (BenchRun.dir_after (insert "a" 1001 :: replicate 15 (insert "b" 1002))) /\
  Bench.find_file (chars "a")
    (BenchRun.dir_after (insert "a" 1001 :: replicate 15 (insert "b" 1002)))
  = Done (Some (new_dir_entry (chars "a") 1001),
          BenchRun.dir_after (insert "a" 1001 :: replicate 15 (insert "b" 1002))) /\
  ~ scans_routed_block_only
      (BenchRun.dir_after (insert "a" 1001 :: replicate 15 (insert "b" 1002)))
      (chars "a").
Proof.
  split; [apply Bench_reachable_dir_after|].
  split; [vm_compute; reflexivity|].
  intros H.
  specialize (H 1%nat (block_of [new_dir_entry (chars "b") 1002])).
  assert (Hnone : Bench.find_file (chars "a")
            (BenchRun.dir_after (insert "a" 1001 :: replicate 15 (insert "b" 1002)))
          = Done (None,
                  BenchRun.dir_after (insert "a" 1001 :: replicate 15 (insert "b" 1002)))).
  { apply H; vm_compute; reflexivity. }
  vm_compute in Hnone. discriminate.
Qed.

Lemma find_file_frame_witness :
  (forall r dir',
     Bench.find_file (chars "file1.txt")
       (BenchRun.dir_after [insert "file1.txt" 1001]) = Done (r, dir') ->
     dir' = BenchRun.dir_after [insert "file1.txt" 1001]) /\
  exists r,
    Bench.find_file (chars "file1.txt")
      (BenchRun.dir_after [insert "file1.txt" 1001])
    = Done (r, BenchRun.dir_after [insert "file1.txt" 1001]).
Proof.
  destruct (find_file_frame (BenchRun.dir_after [insert "file1.txt" 1001])
              (chars "file1.txt")) as [Hframe Hreturns].
  split; [exact Hframe|].
  apply Hreturns.
  - apply Bench_reachable_dir_after.
  - intros Hnull. vm_compute in Hnull. discriminate.
  - vm_compute. reflexivity.
Defined.

(** * Failed allocations *)

(** C9 at its failing input: one full entry block, and [realloc] answers
    NULL to the insertion that needs a second one.  [insert_file] returns
    with the block counter at 2 and the pointer array gone; the next lookup
    dereferences NULL. *)
Theorem insert_file_realloc_null_not_atomic :
  num_entry_blocks (BenchRun.dir_after (replicate 15 (insert "file.txt" 1000))) = 1 /\
  total_entries (stats (BenchRun.dir_after (replicate 15 (insert "file.txt" 1000)))) = 15 /\
  exists dir',
    Bench.insert_file ReallocNull (chars "next.txt") 1015
      (BenchRun.dir_after (replicate 15 (insert "file.txt" 1000))) = Done (tt, dir') /\
    num_entry_blocks dir' = 2 /\
    entry_blocks dir' = None /\
    Bench.find_file (chars "file.txt") dir' = Fault.
Proof.
  split; [vm_compute; reflexivity|].
  split; [vm_compute; reflexivity|].
  eexists. split; [vm_compute; reflexivity|].
  split; [reflexivity|]. split; reflexivity.
Qed.

(** The sibling path: after a failed [malloc] the counter is put back and
    the directory holds what it held. *)
Lemma insert_file_malloc_null_atomic dir name inode dir' :
  BenchRun.reachable dir -> healthy dir ->
  Bench.insert_file MallocNull name inode dir = Done (tt, dir') ->
  (directory_records dir' = directory_records dir /\
   num_entry_blocks dir' = num_entry_blocks dir) \/
  directory_records dir' = directory_records dir ++ [new_dir_entry name inode].
Proof.
  intros Hr Hh Hrun. destruct (reachable_represents _ Hr Hh) as [ess R].
  destruct (insert_file_represents _ _ _ _ _ _ R Hrun)
    as [R'|[(_ & _ & R')|(? & _)]]; [| |discriminate].
  - right. rewrite (represents_records _ _ R'), (represents_records _ _ R).
    apply concat_place, (rep_filled _ _ R).
  - left. rewrite (represents_records _ _ R'), (represents_records _ _ R).
    rewrite (rep_num _ _ R'), (rep_num _ _ R). auto.
Qed.

(** * The implementation file with the heap answering *)

Lemma Impl_add_entry_block_HeapOk dir :
  Impl.add_entry_block HeapOk dir
  = match Bench.add_entry_block HeapOk dir with
    | Done (Some p, dir') => Done (p, dir')
    | _ => Fault
    end.
Proof.
  unfold Impl.add_entry_block, Bench.add_entry_block, realloc,
    store_entry_block_slot. run. simpl.
  destruct (wrap32 (num_entry_blocks dir + 1) =? 0); [reflexivity|]. simpl.
  destruct (decide _); reflexivity.
Qed.

Lemma Impl_insert_file_HeapOk name inode dir r :
  Bench.insert_file HeapOk name inode dir = Done r ->
  Impl.insert_file HeapOk name inode dir = Done r.
Proof.
  rewrite insert_file_unfold.
  change (Impl.insert_file HeapOk name inode)
    with (p ← Impl.find_entry_block HeapOk (hash_filename name);
          write_record p name inode).
  unfold Impl.find_entry_block, Bench.find_entry_block. run.
  intros Hrun. rewrite Impl_find_entry_block_loop. revert Hrun.
  destruct (Bench.find_entry_block_loop _ _ dir) as [[[p|] dir1]|];
    [tauto| |discriminate].
  rewrite Impl_add_entry_block_HeapOk.
  destruct (Bench.add_entry_block HeapOk dir1) as [[[p|] dir2]|] eqn:Hadd;
    [tauto| |discriminate].
  exfalso. revert Hadd.
  unfold Bench.add_entry_block, realloc, store_entry_block_slot. run. simpl.
  destruct (wrap32 (num_entry_blocks dir1 + 1) =? 0); [discriminate|]. simpl.
  destruct (decide _); discriminate.
Qed.

Lemma Impl_insert_file_total dir ess name inode :
  represents dir ess ->
  num_entry_blocks dir < 2 ^ 32 - 1 ->
  exists dir',
    Impl.insert_file HeapOk name inode dir = Done (tt, dir') /\
    represents dir' (place (new_dir_entry name inode) ess).
Proof.
  intros R Hb.
  destruct (insert_file_HeapOk_total _ _ name inode R Hb) as (dir' & Hins & R').
  exists dir'. split; [apply Impl_insert_file_HeapOk, Hins|exact R'].
Qed.

Lemma length_place e ess :
  length (place e ess) = length ess \/ length (place e ess) = S (length ess).
Proof.
  unfold place. destruct (first_room ess 0).
  - left. apply length_alter.
  - right. rewrite length_app. simpl. lia.
Qed.

(** A run of insertions appends its records, in order. *)
Lemma Impl_run_records reqs : forall dir ess,
  represents dir ess ->
  Forall (fun rq => rq_heap rq = HeapOk) reqs ->
  Z.of_nat (length ess) + Z.of_nat (length reqs) < 2 ^ 32 ->
  exists dir' ess',
    ImplRun.insert_files reqs dir = Done (tt, dir') /\
    represents dir' ess' /\
    concat ess' = concat ess
                  ++ ((fun rq => new_dir_entry (rq_name rq) (rq_inode rq)) <$> reqs).
Proof.
  induction reqs as [|rq reqs IH]; intros dir ess R Hok Hb.
  - exists dir, ess. simpl. rewrite app_nil_r. auto.
  - inversion Hok as [|? ? Hrq Hrest]; subst. simpl in Hb.
    destruct (Impl_insert_file_total dir ess (rq_name rq) (rq_inode rq) R)
      as (dir1 & Hins & R1).
    { rewrite (rep_num _ _ R). lia. }
    destruct (IH dir1 _ R1 Hrest) as (dir' & ess' & Hrun & R' & Hcat).
    { destruct (length_place (new_dir_entry (rq_name rq) (rq_inode rq)) ess); lia. }
    exists dir', ess'. split; [|split; [exact R'|]].
    + simpl. run. rewrite Hrq, Hins. exact Hrun.
    + rewrite Hcat, (concat_place _ _ (rep_filled _ _ R)), <- app_assoc. reflexivity.
Qed.

(** * Capacity *)

(** Whatever the sizes of the header and of a record are on the target, a
    count within [(block size - header size) / record size] fits. *)
Section Layout.

Variables block_size header_size rec_size : Z.
Hypothesis rec_size_pos : 0 < rec_size.

Lemma count_within_block count :
  0 <= count <= (block_size - header_size) / rec_size ->
  count * rec_size + header_size <= block_size.
Proof.
  intros [H0 Hc].
  pose proof (Z.mul_div_le (block_size - header_size) rec_size rec_size_pos).
  nia.
Qed.

End Layout.

(** C6. In every directory the implementation reaches, every block (the
    root, the index blocks, of which there are none, and every entry block)
    has [entry_count * record size + header size <= BLOCK_SIZE] and an
    [entry_count] within the capacity of its kind; and the blocks listed
    are all the blocks the counters announce. *)
Theorem capacity_invariant (dir : htree_directory) :
  ImplRun.reachable dir ->
  Forall within_capacity (directory_blocks dir) /\
  Z.of_nat (length (directory_blocks dir))
  = 1 + num_index_blocks dir + num_entry_blocks dir.
Proof.
  intros Hr. destruct (Impl_reachable_represents _ Hr) as [ess R].
  unfold directory_blocks.
  rewrite (represents_index_blocks _ _ R), (represents_entry_blocks _ _ R).
  rewrite (rep_num_index _ _ R), (rep_num _ _ R). simpl.
  split.
  - constructor.
    + rewrite (rep_root _ _ R). apply within_capacity_root.
    + apply Forall_fmap, Forall_lookup_2. intros i es Hes. simpl.
      apply within_capacity_block_of.
      destruct (filled_bounds _ _ _ (rep_filled _ _ R) Hes). lia.
  - rewrite length_fmap. lia.
Qed.

Lemma capacity_invariant_witness :
  Forall within_capacity
    (directory_blocks
       (ImplRun.dir_after (replicate 16 (insert "file.txt" 1000)))) /\
  Z.of_nat (length (directory_blocks
                      (ImplRun.dir_after (replicate 16 (insert "file.txt" 1000)))))
  = 1 + num_index_blocks (ImplRun.dir_after (replicate 16 (insert "file.txt" 1000)))
      + num_entry_blocks (ImplRun.dir_after (replicate 16 (insert "file.txt" 1000))).
Proof.
  apply (capacity_invariant (ImplRun.dir_after (replicate 16 (insert "file.txt" 1000)))).
  apply Impl_reachable_dir_after.
Defined.

(** * The first block with room *)

Lemma Impl_find_entry_block_room dir ess heap hash p :
  represents dir ess -> first_room ess 0 = Some p ->
  Impl.find_entry_block heap hash dir = Done (p, dir).
Proof.
  intros R Hp. unfold Impl.find_entry_block. run.
  rewrite Impl_find_entry_block_loop.
  rewrite (rep_num _ _ R), Nat2Z.id.
  rewrite (find_entry_block_loop_represents _ _ R) by lia.
  rewrite drop_0, Hp. reflexivity.
Qed.

Lemma Impl_find_entry_block_full dir ess hash :
  represents dir ess -> first_room ess 0 = None ->
  Z.of_nat (length ess) + 1 < 2 ^ 32 ->
  exists dir1,
    Impl.find_entry_block HeapOk hash dir = Done (length ess, dir1) /\
    entry_blocks dir1 = Some (slots_of (ess ++ [[]]) ++ []) /\
    num_entry_blocks dir1 = Z.of_nat (length ess) + 1.
Proof.
  intros R Hp Hb.
  destruct (add_entry_block_HeapOk _ _ R Hb) as (dir1 & Hadd & Hs1 & Hn1 & _).
  exists dir1. split; [|auto].
  unfold Impl.find_entry_block. run.
  rewrite Impl_find_entry_block_loop.
  rewrite (rep_num _ _ R), Nat2Z.id.
  rewrite (find_entry_block_loop_represents _ _ R) by lia.
  rewrite drop_0, Hp, Impl_add_entry_block_HeapOk, Hadd. reflexivity.
Qed.

(** C3, as the code has it.  With at least one entry block, the block
    [find_entry_block] returns does not depend on the hash: it is the first
    entry block, in the order of the pointer array, whose [entry_count] is
    below [MAX_ENTRIES_PER_BLOCK]; when every block is full it is a new,
    empty block appended to the array. *)
Theorem find_entry_block_first_room (dir : htree_directory) :
  ImplRun.reachable dir ->
  1 <= num_entry_blocks dir < 2 ^ 32 - 1 ->
  exists p dir',
    (forall hash, Impl.find_entry_block HeapOk hash dir = Done (p, dir')) /\
    (forall i, (i < p)%nat ->
       exists b, block_at dir i = Some b /\
                 entry_count (header b) = MAX_ENTRIES_PER_BLOCK) /\
    ((dir' = dir /\
      exists b, block_at dir p = Some b /\
                entry_count (header b) < MAX_ENTRIES_PER_BLOCK) \/
     (Z.of_nat p = num_entry_blocks dir /\
      num_entry_blocks dir' = num_entry_blocks dir + 1 /\
      block_at dir' p = Some (block_of []))).
Proof.
  intros Hr Hnum. destruct (Impl_reachable_represents _ Hr) as [ess R].
  rewrite (rep_num _ _ R) in Hnum.
  assert (Hfull : forall i, (S i < length ess)%nat ->
            exists b, block_at dir i = Some b /\
                      entry_count (header b) = MAX_ENTRIES_PER_BLOCK).
  { intros i Hi. destruct (lookup_lt_is_Some_2 ess i) as [es Hes]; [lia|].
    exists (block_of es). rewrite (represents_block_at _ _ _ R), Hes.
    split; [reflexivity|]. simpl.
    apply (filled_bounds _ _ _ (rep_filled _ _ R) Hes), Hi. }
  destruct (filled_cases _ (rep_filled _ _ R)) as [E|(fulls & last & E & Hf & Hl)].
  { rewrite E in Hnum. simpl in Hnum. lia. }
  assert (Hlen : length ess = S (length fulls)).
  { rewrite E, length_app. simpl. lia. }
  destruct (Z.eq_dec (Z.of_nat (length last)) MAX_ENTRIES_PER_BLOCK) as [Heq|Hne].
  - destruct (place_full (new_dir_entry [] 0) fulls last Hf Heq) as [Hroom _].
    rewrite <- E in Hroom.
    destruct (Impl_find_entry_block_full dir ess 0 R Hroom)
      as (dir1 & Hrun & Hs1 & Hn1); [lia|].
    exists (length ess), dir1. split; [|split].
    + intros hash. exact Hrun.
    + intros i Hi. destruct (decide (S i < length ess)%nat) as [Hlt|Hge].
      * apply Hfull, Hlt.
      * assert (i = length fulls) by lia. subst i.
        exists (block_of last). rewrite (represents_block_at _ _ _ R), E.
        rewrite lookup_app_r by lia. rewrite Nat.sub_diag. simpl. auto.
    + right. rewrite (rep_num _ _ R). split; [reflexivity|]. split; [exact Hn1|].
      unfold block_at. rewrite Hs1, Hn1.
      destruct (decide _); [|lia].
      rewrite app_nil_r, slots_of_snoc.
      rewrite lookup_app_r by (rewrite length_slots_of; lia).
      rewrite length_slots_of, Nat.sub_diag. reflexivity.
  - destruct (place_room (new_dir_entry [] 0) fulls last Hf) as [Hroom _]; [lia|].
    rewrite <- E in Hroom.
    exists (length fulls), dir. split; [|split].
    + intros hash. apply (Impl_find_entry_block_room _ _ _ _ _ R Hroom).
    + intros i Hi. apply Hfull. lia.
    + left. split; [reflexivity|].
      exists (block_of last). rewrite (represents_block_at _ _ _ R), E.
      rewrite lookup_app_r by lia. rewrite Nat.sub_diag. simpl.
      split; [reflexivity|lia].
Qed.

Lemma find_entry_block_first_room_witness :
  exists p dir',
    (forall hash,
       Impl.find_entry_block HeapOk hash
         (ImplRun.dir_after (replicate 15 (insert "file.txt" 1000))) = Done (p, dir')) /\
    (forall i, (i < p)%nat ->
       exists b, block_at (ImplRun.dir_after (replicate 15 (insert "file.txt" 1000))) i
                 = Some b /\
                 entry_count (header b) = MAX_ENTRIES_PER_BLOCK) /\
    ((dir' = ImplRun.dir_after (replicate 15 (insert "file.txt" 1000)) /\
      exists b, block_at (ImplRun.dir_after (replicate 15 (insert "file.txt" 1000))) p
                = Some b /\
                entry_count (header b) < MAX_ENTRIES_PER_BLOCK) \/
     (Z.of_nat p
      = num_entry_blocks (ImplRun.dir_after (replicate 15 (insert "file.txt" 1000))) /\
      num_entry_blocks dir'
      = num_entry_blocks (ImplRun.dir_after (replicate 15 (insert "file.txt" 1000))) + 1 /\
      block_at dir' p = Some (block_of []))).
Proof.
  apply (find_entry_block_first_room
           (ImplRun.dir_after (replicate 15 (insert "file.txt" 1000)))).
  - apply Impl_reachable_dir_after.
  - vm_compute. split; [discriminate|reflexivity].
Defined.

(** C3 as stated fails: after one insertion the routing answer is block 0,
    and the root block holds no boundary record to take it from. *)
Lemma routes_by_boundary_fails :
  ImplRun.reachable (ImplRun.dir_after [insert "file1.txt" 1001]) /\
  1 <= num_entry_blocks (ImplRun.dir_after [insert "file1.txt" 1001]) /\
  block_index_records (root_block (ImplRun.dir_after [insert "file1.txt" 1001])) = [] /\
  ~ routes_by_boundary (ImplRun.dir_after [insert "file1.txt" 1001])
      (hash_filename (chars "file2.txt")).
Proof.
  split; [apply Impl_reachable_dir_after|].
  split; [vm_compute; discriminate|].
  split; [vm_compute; reflexivity|].
  intros H.
  specialize (H 0%nat (ImplRun.dir_after [insert "file1.txt" 1001])).
  assert (Hroute : route (block_index_records
                            (root_block (ImplRun.dir_after [insert "file1.txt" 1001])))
                     (hash_filename (chars "file2.txt")) = Some (Z.of_nat 0)).
  { apply H. vm_compute. reflexivity. }
  vm_compute in Hroute. discriminate.
Qed.

(** * Names longer than the name array *)

Lemma strncpy_long n : forall name,
  Z.of_nat n <= strlen name -> strncpy name n = take n name.
Proof.
  induction n as [|n IH]; intros name Hlen; [reflexivity|].
  destruct name as [|c name]; simpl in Hlen; [lia|].
  simpl. destruct (c =? 0); [lia|].
  f_equal. apply IH. lia.
Qed.

(** C4, as the code has it.  [insert_file] has no length check and returns
    nothing: a name of more than [MAX_FILENAME] chars is stored like any
    other, cut to its first [MAX_FILENAME] chars.  The record is appended
    to the records of the directory, so [total_entries] grows by one,
    [entry_block_count] by at most one, and [index_block_count] stays. *)
Theorem insert_file_long_name (dir : htree_directory) (name : list Z) (inode : Z) :
  ImplRun.reachable dir ->
  num_entry_blocks dir < 2 ^ 32 - 1 ->
  MAX_FILENAME < strlen name ->
  exists dir',
    Impl.insert_file HeapOk name inode dir = Done (tt, dir') /\
    directory_records dir' = directory_records dir ++ [new_dir_entry name inode] /\
    de_name (new_dir_entry name inode) = take (Z.to_nat MAX_FILENAME) name /\
    de_inode (new_dir_entry name inode) = inode /\
    total_entries (stats dir') = total_entries (stats dir) + 1 /\
    index_block_count (stats dir') = index_block_count (stats dir) /\
    entry_block_count (stats dir) <= entry_block_count (stats dir')
      <= entry_block_count (stats dir) + 1.
Proof.
  intros Hr Hb Hlen. destruct (Impl_reachable_represents _ Hr) as [ess R].
  destruct (Impl_insert_file_total _ _ name inode R Hb) as (dir' & Hins & R').
  exists dir'. split; [exact Hins|].
  rewrite (represents_records _ _ R'), (represents_records _ _ R).
  rewrite (represents_total _ _ R'), (represents_total _ _ R).
  rewrite (concat_place _ _ (rep_filled _ _ R)).
  split; [reflexivity|].
  split; [apply strncpy_long; constants; lia|].
  split; [reflexivity|].
  split; [rewrite length_app; simpl; lia|].
  unfold stats. simpl.
  rewrite (rep_num_index _ _ R'), (rep_num_index _ _ R).
  rewrite (rep_num _ _ R'), (rep_num _ _ R).
  split; [reflexivity|].
  destruct (length_place (new_dir_entry name inode) ess); lia.
Qed.

Lemma insert_file_long_name_witness :
  exists dir',
    Impl.insert_file HeapOk (replicate 300 120) 7 init_htree_directory
    = Done (tt, dir') /\
    directory_records dir'
    = directory_records init_htree_directory
      ++ [new_dir_entry (replicate 300 120) 7] /\
    de_name (new_dir_entry (replicate 300 120) 7)
    = take (Z.to_nat MAX_FILENAME) (replicate 300 120) /\
    de_inode (new_dir_entry (replicate 300 120) 7) = 7 /\
    total_entries (stats dir') = total_entries (stats init_htree_directory) + 1 /\
    index_block_count (stats dir') = index_block_count (stats init_htree_directory) /\
    entry_block_count (stats init_htree_directory) <= entry_block_count (stats dir')
      <= entry_block_count (stats init_htree_directory) + 1.
Proof.
  apply (insert_file_long_name init_htree_directory (replicate 300 120) 7).
  - apply ImplRun.reach_init.
  - vm_compute. reflexivity.
  - vm_compute. reflexivity.
Defined.

(** C4 as stated fails: a name of 300 chars is inserted into the fresh
    directory and the counters of [stats()] move. *)
Lemma rejects_long_name_fails :
  strlen (replicate 300 120) = 300 /\
  stats init_htree_directory
  = {| entry_block_count := 0; index_block_count := 0; total_entries := 0 |} /\
  stats (ImplRun.dir_after
           [{| rq_heap := HeapOk; rq_name := replicate 300 120; rq_inode := 7 |}])
  = {| entry_block_count := 1; index_block_count := 0; total_entries := 1 |} /\
  ~ rejects_long_name init_htree_directory (replicate 300 120) 7.
Proof.
  split; [vm_compute; reflexivity|].
  split; [vm_compute; reflexivity|].
  split; [vm_compute; reflexivity|].
  intros H.
  specialize (H (ImplRun.dir_after
                   [{| rq_heap := HeapOk; rq_name := replicate 300 120; rq_inode := 7 |}])).
  assert (Hstats :
    stats (ImplRun.dir_after
             [{| rq_heap := HeapOk; rq_name := replicate 300 120; rq_inode := 7 |}])
    = stats init_htree_directory).
  { apply H. vm_compute. reflexivity. }
  vm_compute in Hstats. discriminate.
Qed.

(** * The root block and the order of the entry blocks *)

(** C5, as the code has it.  Through every sequence of insertions the root
    block stays as [init_htree_directory] made it: it holds no boundary
    record, and there is no index block.  The entry blocks are not keyed by
    hash range: they are filled in the order of arrival, every block but
    the last holding [MAX_ENTRIES_PER_BLOCK] records and the last at least
    one. *)
Theorem root_block_never_indexed (dir : htree_directory) :
  ImplRun.reachable dir ->
  root_block dir = root_block init_htree_directory /\
  block_index_records (root_block dir) = [] /\
  index_blocks dir = None /\
  num_index_blocks dir = 0 /\
  forall i, Z.of_nat i < num_entry_blocks dir ->
    exists b, block_at dir i = Some b /\
      1 <= entry_count (header b) <= MAX_ENTRIES_PER_BLOCK /\
      (Z.of_nat i + 1 < num_entry_blocks dir ->
       entry_count (header b) = MAX_ENTRIES_PER_BLOCK).
Proof.
  intros Hr. destruct (Impl_reachable_represents _ Hr) as [ess R].
  split; [apply (rep_root _ _ R)|].
  split.
  { rewrite (rep_root _ _ R). unfold block_index_records.
    rewrite init_root_header. reflexivity. }
  split; [apply (rep_index_blocks _ _ R)|].
  split; [apply (rep_num_index _ _ R)|].
  intros i Hi. rewrite (rep_num _ _ R) in *.
  destruct (lookup_lt_is_Some_2 ess i) as [es Hes]; [lia|].
  exists (block_of es). rewrite (represents_block_at _ _ _ R), Hes.
  split; [reflexivity|]. simpl.
  destruct (filled_bounds _ _ _ (rep_filled _ _ R) Hes) as [Hb Hfull].
  split; [exact Hb|]. intros Hlt. apply Hfull. lia.
Qed.

Lemma root_block_never_indexed_witness :
  root_block (ImplRun.dir_after (replicate 16 (insert "file.txt" 1000)))
  = root_block init_htree_directory /\
  block_index_records
    (root_block (ImplRun.dir_after (replicate 16 (insert "file.txt" 1000)))) = [] /\
  index_blocks (ImplRun.dir_after (replicate 16 (insert "file.txt" 1000))) = None /\
  num_index_blocks (ImplRun.dir_after (replicate 16 (insert "file.txt" 1000))) = 0 /\
  forall i,
    Z.of_nat i
    < num_entry_blocks (ImplRun.dir_after (replicate 16 (insert "file.txt" 1000))) ->
    exists b,
      block_at (ImplRun.dir_after (replicate 16 (insert "file.txt" 1000))) i = Some b /\
      1 <= entry_count (header b) <= MAX_ENTRIES_PER_BLOCK /\
      (Z.of_nat i + 1
       < num_entry_blocks (ImplRun.dir_after (replicate 16 (insert "file.txt" 1000))) ->
       entry_count (header b) = MAX_ENTRIES_PER_BLOCK).
Proof.
  apply (root_block_never_indexed
           (ImplRun.dir_after (replicate 16 (insert "file.txt" 1000)))).
  apply Impl_reachable_dir_after.
Defined.

(** C5 as stated fails: after one insertion there is an entry block and the
    root block has no boundary, so no range holds the hash 0. *)
Lemma partition_invariant_fails :
  ImplRun.reachable (ImplRun.dir_after [insert "file1.txt" 1001]) /\
  num_entry_blocks (ImplRun.dir_after [insert "file1.txt" 1001]) = 1 /\
  ~ partition_invariant (ImplRun.dir_after [insert "file1.txt" 1001]).
Proof.
  split; [apply Impl_reachable_dir_after|].
  split; [vm_compute; reflexivity|].
  intros H.
  assert (Hrecs : block_index_records
                    (root_block (ImplRun.dir_after [insert "file1.txt" 1001])) = [])
    by (vm_compute; reflexivity).
  unfold partition_invariant in H. rewrite Hrecs in H.
  destruct (H ltac:(vm_compute; discriminate) 0 ltac:(lia))
    as (k & (lo & hi & Hrange & _) & _).
  unfold boundary_range in Hrange. rewrite lookup_nil in Hrange. discriminate.
Qed.

(** * The boundary between the first and the second entry block *)

Lemma Impl_run_from_init reqs :
  Forall (fun rq => rq_heap rq = HeapOk) reqs ->
  Z.of_nat (length reqs) < 2 ^ 32 ->
  exists dir ess,
    ImplRun.insert_files reqs init_htree_directory = Done (tt, dir) /\
    represents dir ess /\
    length (concat ess) = length reqs.
Proof.
  intros Hok Hb.
  destruct (Impl_run_records reqs _ _ represents_init Hok) as (dir & ess & Hrun & R & Hcat).
  { simpl. lia. }
  exists dir, ess. split; [exact Hrun|]. split; [exact R|].
  rewrite Hcat. simpl. apply length_fmap.
Qed.

(** C8. Starting from the fresh directory, each of the first
    [MAX_ENTRIES_PER_BLOCK] insertions leaves exactly one entry block (the
    first one allocates it, none allocates a second), and the insertion
    after them, whatever its name, brings the number of entry blocks to
    two. *)
Theorem second_block_after_capacity (reqs : list request) (rq : request) :
  length reqs = Z.to_nat MAX_ENTRIES_PER_BLOCK ->
  Forall (fun r => rq_heap r = HeapOk) (reqs ++ [rq]) ->
  (forall k, (1 <= k <= length reqs)%nat ->
     exists dir_k,
       ImplRun.insert_files (take k reqs) init_htree_directory = Done (tt, dir_k) /\
       num_entry_blocks dir_k = 1) /\
  exists dir_n dir',
    ImplRun.insert_files reqs init_htree_directory = Done (tt, dir_n) /\
    total_entries (stats dir_n) = MAX_ENTRIES_PER_BLOCK /\
    num_entry_blocks dir_n = 1 /\
    Impl.insert_file (rq_heap rq) (rq_name rq) (rq_inode rq) dir_n = Done (tt, dir') /\
    num_entry_blocks dir' = 2.
Proof.
  intros Hlen Hok. rewrite max_entries_nat in Hlen.
  apply Forall_app in Hok. destruct Hok as [Hok Hrq].
  inversion Hrq as [|? ? Hheap _]; subst.
  assert (Hone : forall l : list request,
            Forall (fun r => rq_heap r = HeapOk) l ->
            (1 <= length l <= 15)%nat ->
            exists dir ess,
              ImplRun.insert_files l init_htree_directory = Done (tt, dir) /\
              represents dir ess /\ length (concat ess) = length l /\
              num_entry_blocks dir = 1).
  { intros l Hl Hk.
    destruct (Impl_run_from_init l Hl) as (dir & ess & Hrun & R & Hcount); [lia|].
    exists dir, ess. repeat (split; [assumption|]).
    rewrite (rep_num _ _ R).
    destruct (filled_count _ (rep_filled _ _ R)) as [E|Hc].
    - rewrite E in Hcount. simpl in Hcount. lia.
    - constants. lia. }
  split.
  - intros k Hk.
    destruct (Hone (take k reqs)) as (dir & ess & Hrun & _ & _ & Hn).
    + apply Forall_take, Hok.
    + rewrite length_take. lia.
    + eauto.
  - destruct (Hone reqs Hok) as (dir & ess & Hrun & R & Hcount & Hn); [lia|].
    destruct (Impl_insert_file_total dir ess (rq_name rq) (rq_inode rq) R)
      as (dir' & Hins & R'); [lia|].
    exists dir, dir'. split; [exact Hrun|].
    split; [rewrite (represents_total _ _ R); constants; lia|].
    split; [exact Hn|]. split; [rewrite Hheap; exact Hins|].
    rewrite (rep_num _ _ R').
    assert (Hcount' : length (concat (place (new_dir_entry (rq_name rq) (rq_inode rq)) ess))
                      = 16%nat).
    { rewrite (concat_place _ _ (rep_filled _ _ R)), length_app. simpl. lia. }
    destruct (filled_count _ (rep_filled _ _ R')) as [E|Hc].
    + rewrite E in Hcount'. simpl in Hcount'. lia.
    + constants. lia.
Qed.

Lemma second_block_after_capacity_witness :
  (forall k, (1 <= k <= length (replicate 15 (insert "file.txt" 1000)))%nat ->
     exists dir_k,
       ImplRun.insert_files (take k (replicate 15 (insert "file.txt" 1000)))
         init_htree_directory = Done (tt, dir_k) /\
       num_entry_blocks dir_k = 1) /\
  exists dir_n dir',
    ImplRun.insert_files (replicate 15 (insert "file.txt" 1000)) init_htree_directory
    = Done (tt, dir_n) /\
    total_entries (stats dir_n) = MAX_ENTRIES_PER_BLOCK /\
    num_entry_blocks dir_n = 1 /\
    Impl.insert_file (rq_heap (insert "next.txt" 1015)) (rq_name (insert "next.txt" 1015))
      (rq_inode (insert "next.txt" 1015)) dir_n = Done (tt, dir') /\
    num_entry_blocks dir' = 2.
Proof.
  apply (second_block_after_capacity (replicate 15 (insert "file.txt" 1000))
           (insert "next.txt" 1015)).
  - vm_compute. reflexivity.
  - repeat constructor.
Defined.

(** * Further properties of the two files *)

(** ** Strings *)

Lemma strlen_cstring s : strlen s = Z.of_nat (length (cstring s)).
Proof.
  induction s as [|c s IH]; simpl; [reflexivity|].
  destruct (c =? 0); simpl; lia.
Qed.

Lemma cstring_nonzero s : Forall (fun c => c <> 0) (cstring s).
Proof.
  induction s as [|c s IH]; simpl; [constructor|].
  destruct (Z.eqb_spec c 0); constructor; assumption.
Qed.

Lemma cstring_id s : Forall (fun c => c <> 0) s -> cstring s = s.
Proof.
  induction 1 as [|c s Hc _ IH]; simpl; [reflexivity|].
  destruct (Z.eqb_spec c 0); [contradiction|]. rewrite IH. reflexivity.
Qed.

(** What the name array holds decides the comparison with any name shorter
    than the array: equal strings, and nothing else, compare equal. *)
Lemma strcmp_strncpy_cstring n : forall s t,
  strlen t < Z.of_nat n ->
  strcmp_is0 (strncpy s n) t = Done (bool_decide (cstring s = cstring t)).
Proof.
  induction n as [|n IH]; intros s t Hlen.
  - pose proof (strlen_nonneg t). lia.
  - assert (Hnul : forall s', cstring s' = [] ->
              strcmp_is0 (0 :: strncpy [] n) t = Done (bool_decide (cstring s' = cstring t))).
    { intros s' Hs'. rewrite Hs'. cbn [strcmp_is0].
      destruct t as [|d t]; cbn [hd cstring].
      - rewrite Z.eqb_refl. reflexivity.
      - destruct (Z.eqb_spec 0 d) as [<-|Hd].
        + rewrite Z.eqb_refl. reflexivity.
        + destruct (Z.eqb_spec d 0); [congruence|].
          rewrite bool_decide_eq_false_2 by discriminate. reflexivity. }
    destruct s as [|c s]; cbn [strncpy]; [apply Hnul; reflexivity|].
    destruct (Z.eqb_spec c 0) as [Hc|Hc].
    { apply Hnul. cbn [cstring]. subst c. rewrite Z.eqb_refl. reflexivity. }
    cbn [strcmp_is0 cstring].
    destruct (Z.eqb_spec c 0); [contradiction|].
    destruct t as [|d t]; cbn [hd tl cstring].
    + destruct (Z.eqb_spec c 0); [contradiction|].
      rewrite bool_decide_eq_false_2 by discriminate. reflexivity.
    + cbn [strlen] in Hlen.
      destruct (Z.eqb_spec c d) as [<-|Hcd].
      * destruct (Z.eqb_spec c 0); [contradiction|].
        rewrite IH by lia.
        f_equal. apply bool_decide_ext. split; [congruence|].
        intros [= H]. exact H.
      * destruct (Z.eqb_spec d 0).
        -- rewrite bool_decide_eq_false_2 by discriminate. reflexivity.
        -- rewrite bool_decide_eq_false_2 by congruence. reflexivity.
Qed.

Lemma first_match_requests name reqs :
  strlen name < MAX_FILENAME ->
  first_match name (entry_of <$> reqs) = Done (entry_of <$> first_request name reqs).
Proof.
  intros Hlen. induction reqs as [|rq reqs IH]; [reflexivity|].
  rewrite fmap_cons. simpl.
  rewrite strcmp_strncpy_cstring by (constants; lia).
  destruct (decide (cstring (rq_name rq) = cstring name)) as [Heq|Hne].
  - rewrite bool_decide_eq_true_2 by exact Heq. reflexivity.
  - rewrite bool_decide_eq_false_2 by exact Hne. exact IH.
Qed.

(** ** Runs of the benchmark file *)

Lemma Bench_run_records reqs : forall dir ess,
  represents dir ess ->
  Forall (fun rq => rq_heap rq = HeapOk) reqs ->
  Z.of_nat (length ess) + Z.of_nat (length reqs) < 2 ^ 32 ->
  exists dir' ess',
    BenchRun.insert_files reqs dir = Done (tt, dir') /\
    represents dir' ess' /\
    concat ess' = concat ess ++ (entry_of <$> reqs).
Proof.
  induction reqs as [|rq reqs IH]; intros dir ess R Hok Hb.
  - exists dir, ess. simpl. rewrite app_nil_r. auto.
  - inversion Hok as [|? ? Hrq Hrest]; subst. simpl in Hb.
    destruct (insert_file_HeapOk_total dir ess (rq_name rq) (rq_inode rq) R)
      as (dir1 & Hins & R1).
    { rewrite (rep_num _ _ R). lia. }
    destruct (IH dir1 _ R1 Hrest) as (dir' & ess' & Hrun & R' & Hcat).
    { destruct (length_place (new_dir_entry (rq_name rq) (rq_inode rq)) ess); lia. }
    exists dir', ess'. split; [|split; [exact R'|]].
    + simpl. run. rewrite Hrq, Hins. exact Hrun.
    + rewrite Hcat, (concat_place _ _ (rep_filled _ _ R)), <- app_assoc. reflexivity.
Qed.

Lemma Impl_run_Bench reqs : forall dir r,
  Forall (fun rq => rq_heap rq = HeapOk) reqs ->
  ImplRun.insert_files reqs dir = Done r ->
  BenchRun.insert_files reqs dir = Done r.
Proof.
  induction reqs as [|rq reqs IH]; intros dir r Hok; simpl; run; [tauto|].
  inversion Hok as [|? ? Hrq Hrest]; subst. rewrite Hrq.
  destruct (Impl.insert_file HeapOk _ _ dir) as [[[] dir1]|] eqn:H1; [|discriminate].
  rewrite (Impl_insert_file _ _ _ _ _ H1). apply IH, Hrest.
Qed.

(** The number of blocks that hold [n] records. *)
Lemma filled_blocks ess :
  filled ess ->
  Z.of_nat (length ess)
  = (Z.of_nat (length (concat ess)) + MAX_ENTRIES_PER_BLOCK - 1) / MAX_ENTRIES_PER_BLOCK.
Proof.
  intros H. destruct (filled_count _ H) as [->|Hc]; [reflexivity|].
  revert Hc. constants. intros Hc.
  apply Z.div_unique
    with (r := Z.of_nat (length (concat ess)) + 15 - 1 - 15 * Z.of_nat (length ess)); lia.
Qed.

(** X1. From the fresh directory, [n] insertions that get their memory
    leave [ceil(n / MAX_ENTRIES_PER_BLOCK)] entry blocks, which hold the [n]
    records in the order of the calls. *)
Theorem blocks_after_insertions (reqs : list request) :
  Forall (fun rq => rq_heap rq = HeapOk) reqs ->
  Z.of_nat (length reqs) < 2 ^ 32 ->
  exists dir,
    ImplRun.insert_files reqs init_htree_directory = Done (tt, dir) /\
    BenchRun.insert_files reqs init_htree_directory = Done (tt, dir) /\
    num_entry_blocks dir
    = (Z.of_nat (length reqs) + MAX_ENTRIES_PER_BLOCK - 1) / MAX_ENTRIES_PER_BLOCK /\
    directory_records dir = entry_of <$> reqs.
Proof.
  intros Hok Hb.
  destruct (Impl_run_records reqs _ _ represents_init Hok) as (dir & ess & Hrun & R & Hcat);
    [simpl; lia|].
  pose proof (Impl_run_Bench _ _ _ Hok Hrun) as Hrun2.
  exists dir. split; [exact Hrun|]. split; [exact Hrun2|].
  rewrite (rep_num _ _ R), (represents_records _ _ R), Hcat. simpl. split; [|reflexivity].
  rewrite (filled_blocks _ (rep_filled _ _ R)), Hcat. simpl.
  rewrite length_fmap. reflexivity.
Qed.

Lemma blocks_after_insertions_witness :
  exists dir,
    ImplRun.insert_files (replicate 31 (insert "file.txt" 1000)) init_htree_directory
    = Done (tt, dir) /\
    BenchRun.insert_files (replicate 31 (insert "file.txt" 1000)) init_htree_directory
    = Done (tt, dir) /\
    num_entry_blocks dir
    = (Z.of_nat (length (replicate 31 (insert "file.txt" 1000)))
       + MAX_ENTRIES_PER_BLOCK - 1) / MAX_ENTRIES_PER_BLOCK /\
    directory_records dir = entry_of <$> replicate 31 (insert "file.txt" 1000).
Proof.
  apply (blocks_after_insertions (replicate 31 (insert "file.txt" 1000))).
  - repeat constructor.
  - vm_compute. reflexivity.
Defined.

(** X2. After a run of insertions that get their memory, the lookup of a
    name shorter than the name array returns the record of the first call
    that inserted this string, and NULL when no call did. *)
Theorem lookup_after_insertions (reqs : list request) (name : list Z) :
  Forall (fun rq => rq_heap rq = HeapOk) reqs ->
  Z.of_nat (length reqs) < 2 ^ 32 ->
  strlen name < MAX_FILENAME ->
  exists dir,
    BenchRun.insert_files reqs init_htree_directory = Done (tt, dir) /\
    Bench.find_file name dir = Done (entry_of <$> first_request name reqs, dir).
Proof.
  intros Hok Hb Hlen.
  destruct (Bench_run_records reqs _ _ represents_init Hok) as (dir & ess & Hrun & R & Hcat);
    [simpl; lia|].
  exists dir. split; [exact Hrun|].
  rewrite (find_file_represents _ _ _ R), Hcat. simpl.
  rewrite (first_match_requests _ _ Hlen). reflexivity.
Qed.

Lemma lookup_after_insertions_witness :
  exists dir,
    BenchRun.insert_files
      [insert "file1.txt" 1001; insert "file2.txt" 1002; insert "file2.txt" 1003]
      init_htree_directory = Done (tt, dir) /\
    Bench.find_file (chars "file2.txt") dir
    = Done (entry_of <$> first_request (chars "file2.txt")
              [insert "file1.txt" 1001; insert "file2.txt" 1002; insert "file2.txt" 1003],
            dir).
Proof.
  apply (lookup_after_insertions
           [insert "file1.txt" 1001; insert "file2.txt" 1002; insert "file2.txt" 1003]
           (chars "file2.txt")).
  - repeat constructor.
  - vm_compute. reflexivity.
  - vm_compute. reflexivity.
Defined.

(** X3. An insertion does not change what the lookup of another string
    returns: for a name shorter than the name array whose string differs
    from the inserted one, [find_file] returns after the call what it
    returned before it. *)
Theorem insert_file_keeps_other_lookups
    (dir : htree_directory) (heap : heap_answer) (name other : list Z) (inode : Z)
    (dir' : htree_directory) (r : option dir_entry) :
  BenchRun.reachable dir ->
  healthy dir ->
  Bench.insert_file heap name inode dir = Done (tt, dir') ->
  healthy dir' ->
  strlen other < MAX_FILENAME ->
  cstring other <> cstring name ->
  Bench.find_file other dir = Done (r, dir) ->
  Bench.find_file other dir' = Done (r, dir').
Proof.
  intros Hr Hh Hins Hh' Hlen Hne Hfind.
  destruct (reachable_represents _ Hr Hh) as [ess R].
  rewrite (find_file_represents _ _ _ R) in Hfind.
  destruct (insert_file_represents _ _ _ _ _ _ R Hins)
    as [R'|[(_ & _ & R')|(_ & _ & Hb & _)]].
  - rewrite (find_file_represents _ _ _ R').
    rewrite (concat_place _ _ (rep_filled _ _ R)), first_match_app.
    unfold lift in *.
    destruct (first_match other (concat ess)) as [[e|]|]; try discriminate.
    + injection Hfind as <-. reflexivity.
    + injection Hfind as <-. simpl.
      rewrite strcmp_strncpy_cstring by (constants; lia).
      rewrite bool_decide_eq_false_2 by congruence. reflexivity.
  - rewrite (find_file_represents _ _ _ R'). unfold lift in *.
    destruct (first_match other (concat ess)) as [[e|]|]; try discriminate;
      injection Hfind as <-; reflexivity.
  - destruct (healthy_not_broken _ Hh' Hb).
Qed.

Lemma insert_file_keeps_other_lookups_witness :
  Bench.find_file (chars "file1.txt")
    (BenchRun.dir_after [insert "file1.txt" 1001; insert "file2.txt" 1002])
  = Done (Some (new_dir_entry (chars "file1.txt") 1001),
          BenchRun.dir_after [insert "file1.txt" 1001; insert "file2.txt" 1002]).
Proof.
  apply (insert_file_keeps_other_lookups
           (BenchRun.dir_after [insert "file1.txt" 1001])
           HeapOk (chars "file2.txt") (chars "file1.txt") 1002).
  - apply Bench_reachable_dir_after.
  - intros Hnull. vm_compute in Hnull. discriminate.
  - vm_compute. reflexivity.
  - intros Hnull. vm_compute in Hnull. discriminate.
  - vm_compute. reflexivity.
  - vm_compute. discriminate.
  - vm_compute. reflexivity.
Defined.

(** ** Stored records stay *)

Lemma broken_run reqs : forall dir dir',
  broken dir -> BenchRun.insert_files reqs dir = Done (tt, dir') -> broken dir'.
Proof.
  destruct reqs as [|rq reqs]; intros dir dir' Hb; simpl; run.
  - intros [= <-]. exact Hb.
  - rewrite (broken_insert_file _ _ _ _ Hb). discriminate.
Qed.

(** There is no room exactly when the records fill whole blocks. *)
Lemma length_concat_fulls (fulls : list (list dir_entry)) :
  Forall (fun es => Z.of_nat (length es) = MAX_ENTRIES_PER_BLOCK) fulls ->
  Z.of_nat (length (concat fulls)) = Z.of_nat (length fulls) * MAX_ENTRIES_PER_BLOCK.
Proof.
  induction 1 as [|es fulls Hes _ IH]; simpl; [reflexivity|].
  rewrite length_app. lia.
Qed.

Lemma filled_first_room ess :
  filled ess ->
  (first_room ess 0 = None
   <-> Z.of_nat (length (concat ess)) mod MAX_ENTRIES_PER_BLOCK = 0).
Proof.
  intros H. destruct (filled_cases _ H) as [->|(fulls & last & -> & Hf & Hl)].
  - split; reflexivity.
  - rewrite concat_app, length_app. simpl. rewrite app_nil_r.
    rewrite Nat2Z.inj_add, (length_concat_fulls _ Hf), Z.add_comm, Z_mod_plus_full.
    destruct (Z.eq_dec (Z.of_nat (length last)) MAX_ENTRIES_PER_BLOCK) as [Heq|Hne].
    + destruct (place_full (new_dir_entry [] 0) fulls last Hf Heq) as [-> _].
      rewrite Heq, Z_mod_same_full. split; reflexivity.
    + destruct (place_room (new_dir_entry [] 0) fulls last Hf) as [-> _]; [lia|].
      rewrite Z.mod_small by lia. split; [discriminate|lia].
Qed.

Lemma stores_room m heap :
  Z.of_nat m mod MAX_ENTRIES_PER_BLOCK <> 0 -> stores m heap = true.
Proof.
  intros Hm. unfold stores.
  destruct (Z.eqb_spec (Z.of_nat m mod MAX_ENTRIES_PER_BLOCK) 0); [contradiction|].
  reflexivity.
Qed.

Lemma stores_no_room m heap :
  Z.of_nat m mod MAX_ENTRIES_PER_BLOCK = 0 ->
  stores m heap = match heap with HeapOk => true | _ => false end.
Proof. intros Hm. unfold stores. rewrite Hm. reflexivity. Qed.

(** One call: the record is stored, or [malloc] failed and nothing moved,
    or [realloc] failed. *)
Lemma insert_file_stores dir ess heap name inode dir' :
  represents dir ess ->
  Bench.insert_file heap name inode dir = Done (tt, dir') ->
  (stores (length (concat ess)) heap = true /\
   represents dir' (place (new_dir_entry name inode) ess)) \/
  (stores (length (concat ess)) heap = false /\ represents dir' ess) \/
  broken dir'.
Proof.
  intros R Hrun. pose proof (filled_first_room _ (rep_filled _ _ R)) as Hroom.
  destruct (first_room ess 0) as [p|] eqn:Hp.
  - destruct (insert_file_room _ _ heap name inode _ R Hp) as (d & Hd & Rd).
    left. split; [|congruence].
    apply stores_room. intros Hm. apply Hroom in Hm. discriminate.
  - rewrite (stores_no_room _ _ (proj1 Hroom eq_refl)).
    destruct (insert_file_represents _ _ _ _ _ _ R Hrun)
      as [R'|[(-> & _ & R')|(-> & _ & Hb & _)]].
    + destruct heap.
      * left. split; [reflexivity|exact R'].
      * destruct (Z_lt_dec (Z.of_nat (length ess) + 1) (2 ^ 32)) as [Hb|Hb].
        -- rewrite (insert_file_full_ReallocNull _ _ _ _ R Hp Hb) in Hrun.
           injection Hrun as <-. right. right.
           split; simpl; rewrite ?(rep_num _ _ R); [reflexivity|lia].
        -- rewrite (insert_file_full_wraps _ _ _ _ _ R Hp Hb) in Hrun. discriminate.
      * right. left. split; [reflexivity|].
        destruct (Z_lt_dec (Z.of_nat (length ess) + 1) (2 ^ 32)) as [Hb|Hb].
        -- destruct (insert_file_full_MallocNull _ _ name inode R Hp Hb)
             as (d & Hd & Rd). congruence.
        -- rewrite (insert_file_full_wraps _ _ _ _ _ R Hp Hb) in Hrun. discriminate.
    + right. left. split; [reflexivity|exact R'].
    + right. right. exact Hb.
Qed.

Lemma Bench_run_stored reqs : forall dir ess dir',
  represents dir ess ->
  BenchRun.insert_files reqs dir = Done (tt, dir') ->
  healthy dir' ->
  exists ess',
    represents dir' ess' /\
    concat ess' = concat ess ++ stored_by (length (concat ess)) reqs.
Proof.
  induction reqs as [|rq reqs IH]; intros dir ess dir' R; simpl; run.
  - intros [= <-] _. exists ess. rewrite app_nil_r. auto.
  - destruct (Bench.insert_file _ _ _ dir) as [[[] dir1]|] eqn:Hins; [|discriminate].
    intros Hrun Hh'.
    destruct (insert_file_stores _ _ _ _ _ _ R Hins) as [[-> R1]|[[-> R1]|Hb]].
    + destruct (IH _ _ _ R1 Hrun Hh') as (ess' & R' & Hcat).
      exists ess'. split; [exact R'|].
      rewrite Hcat, (concat_place _ _ (rep_filled _ _ R)), length_app, <- app_assoc.
      simpl. rewrite Nat.add_1_r. reflexivity.
    + apply (IH _ _ _ R1 Hrun Hh').
    + destruct (healthy_not_broken _ Hh' (broken_run _ _ _ Hb Hrun)).
Qed.

Lemma stored_by_sublist reqs : forall m, sublist (stored_by m reqs) (entry_of <$> reqs).
Proof.
  induction reqs as [|rq reqs IH]; intros m; simpl; [constructor|].
  destruct (stores m (rq_heap rq)); [apply sublist_skip|apply sublist_cons]; apply IH.
Qed.

(** X4. Records are only ever appended, and which calls append is fixed by
    the number of records and the answers of the heap.  Through any sequence
    of calls that ends in a directory with its pointer array in place, the
    records stored before are still there, unchanged and in front; behind
    them come the records of the calls, in call order: that of every call
    that found room, which is every call made while the records do not fill
    whole blocks, and that of every call that asked for a block and got
    it.  A call that asked for a block and got NULL from [malloc] leaves
    no record. *)
Theorem stored_records_stay (reqs : list request) (dir dir' : htree_directory) :
  BenchRun.reachable dir ->
  healthy dir ->
  BenchRun.insert_files reqs dir = Done (tt, dir') ->
  healthy dir' ->
  directory_records dir'
  = directory_records dir ++ stored_by (length (directory_records dir)) reqs /\
  sublist (stored_by (length (directory_records dir)) reqs) (entry_of <$> reqs).
Proof.
  intros Hr Hh Hrun Hh'. split; [|apply stored_by_sublist].
  destruct (reachable_represents _ Hr Hh) as [ess R].
  destruct (Bench_run_stored _ _ _ _ R Hrun Hh') as (ess' & R' & Hcat).
  rewrite (represents_records _ _ R'), (represents_records _ _ R). exact Hcat.
Qed.

Lemma stored_records_stay_witness :
  directory_records
    (BenchRun.dir_after
       (replicate 15 (insert "a" 1)
        ++ [{| rq_heap := MallocNull; rq_name := chars "b"; rq_inode := 2 |};
            {| rq_heap := MallocNull; rq_name := chars "c"; rq_inode := 3 |};
            insert "d" 4;
            {| rq_heap := MallocNull; rq_name := chars "e"; rq_inode := 5 |}]))
  = directory_records (BenchRun.dir_after (replicate 15 (insert "a" 1)))
    ++ [new_dir_entry (chars "d") 4; new_dir_entry (chars "e") 5] /\
  sublist [new_dir_entry (chars "d") 4; new_dir_entry (chars "e") 5]
    (entry_of <$> [{| rq_heap := MallocNull; rq_name := chars "b"; rq_inode := 2 |};
                   {| rq_heap := MallocNull; rq_name := chars "c"; rq_inode := 3 |};
                   insert "d" 4;
                   {| rq_heap := MallocNull; rq_name := chars "e"; rq_inode := 5 |}]).
Proof.
  apply (stored_records_stay
           [{| rq_heap := MallocNull; rq_name := chars "b"; rq_inode := 2 |};
            {| rq_heap := MallocNull; rq_name := chars "c"; rq_inode := 3 |};
            insert "d" 4;
            {| rq_heap := MallocNull; rq_name := chars "e"; rq_inode := 5 |}]
           (BenchRun.dir_after (replicate 15 (insert "a" 1)))).
  - apply Bench_reachable_dir_after.
  - intros Hnull. vm_compute in Hnull. discriminate.
  - vm_compute. reflexivity.
  - intros Hnull. vm_compute in Hnull. discriminate.
Defined.

(** ** What every entry block and every record looks like *)

Lemma represents_block_elem dir ess b :
  represents dir ess -> b ∈ directory_entry_blocks dir ->
  exists es, b = block_of es /\ 1 <= Z.of_nat (length es) <= MAX_ENTRIES_PER_BLOCK.
Proof.
  intros R Hb. rewrite (represents_entry_blocks _ _ R) in Hb.
  apply list_elem_of_fmap in Hb. destruct Hb as (es & -> & Hes).
  exists es. split; [reflexivity|].
  apply list_elem_of_lookup in Hes. destruct Hes as [i Hi].
  apply (filled_bounds _ _ _ (rep_filled _ _ R) Hi).
Qed.

(** X5. In every directory reached without a failed [realloc], each entry
    block has type 3, as many written slots as [entry_count] says, and
    [free_space] equal to the payload size less [entry_count] records: the
    subtraction in [insert_file] never wraps, and [free_space] is too small
    for one more record exactly when [entry_count] has reached
    [MAX_ENTRIES_PER_BLOCK]. *)
Theorem entry_block_header_invariant (dir : htree_directory) (b : htree_block) :
  BenchRun.reachable dir ->
  healthy dir ->
  b ∈ directory_entry_blocks dir ->
  block_type (header b) = 3 /\
  Z.of_nat (length (block_records b)) = entry_count (header b) /\
  free_space (header b)
  = BLOCK_SIZE - sizeof_block_header - entry_count (header b) * sizeof_dir_entry /\
  0 <= free_space (header b) /\
  (free_space (header b) < sizeof_dir_entry
   <-> entry_count (header b) = MAX_ENTRIES_PER_BLOCK).
Proof.
  intros Hr Hh Hb. destruct (reachable_represents _ Hr Hh) as [ess R].
  destruct (represents_block_elem _ _ _ R Hb) as (es & -> & Hlen).
  rewrite block_records_block_of. simpl. revert Hlen. constants. intros Hlen.
  repeat split; lia.
Qed.

Lemma entry_block_header_invariant_witness :
  block_type (header (block_of (replicate 15 (new_dir_entry (chars "a") 1)))) = 3 /\
  Z.of_nat (length (block_records (block_of (replicate 15 (new_dir_entry (chars "a") 1)))))
  = entry_count (header (block_of (replicate 15 (new_dir_entry (chars "a") 1)))) /\
  free_space (header (block_of (replicate 15 (new_dir_entry (chars "a") 1))))
  = BLOCK_SIZE - sizeof_block_header
    - entry_count (header (block_of (replicate 15 (new_dir_entry (chars "a") 1))))
      * sizeof_dir_entry /\
  0 <= free_space (header (block_of (replicate 15 (new_dir_entry (chars "a") 1)))) /\
  (free_space (header (block_of (replicate 15 (new_dir_entry (chars "a") 1))))
   < sizeof_dir_entry
   <-> entry_count (header (block_of (replicate 15 (new_dir_entry (chars "a") 1))))
       = MAX_ENTRIES_PER_BLOCK).
Proof.
  apply (entry_block_header_invariant
           (BenchRun.dir_after (replicate 16 (insert "a" 1)))
           (block_of (replicate 15 (new_dir_entry (chars "a") 1)))).
  - apply Bench_reachable_dir_after.
  - intros Hnull. vm_compute in Hnull. discriminate.
  - vm_compute. left.
Defined.

Lemma strlen_strncpy n : forall s,
  strlen (strncpy s n) = Z.min (strlen s) (Z.of_nat n).
Proof.
  induction n as [|n IH]; intros s.
  - pose proof (strlen_nonneg s). simpl. lia.
  - destruct s as [|c s]; cbn [strncpy strlen].
    + rewrite Z.eqb_refl. lia.
    + destruct (Z.eqb_spec c 0) as [Hc|Hc]; cbn [strlen].
      * rewrite Z.eqb_refl. lia.
      * destruct (Z.eqb_spec c 0); [contradiction|]. rewrite IH. lia.
Qed.

Lemma reachable_records P dir :
  (forall name inode, P (new_dir_entry name inode)) ->
  BenchRun.reachable dir -> healthy dir -> Forall P (directory_records dir).
Proof.
  intros HP Hr. induction Hr as [|dir heap name inode dir' Hr IH Hins]; intros Hh.
  - rewrite (represents_records _ _ represents_init). constructor.
  - destruct (reachable_shape _ Hr) as [[ess R]|Hb].
    2:{ rewrite (broken_insert_file _ _ _ _ Hb) in Hins. discriminate. }
    specialize (IH (represents_healthy _ _ R)).
    rewrite (represents_records _ _ R) in IH.
    destruct (insert_file_represents _ _ _ _ _ _ R Hins)
      as [R'|[(_ & _ & R')|(_ & _ & Hb & _)]].
    + rewrite (represents_records _ _ R'), (concat_place _ _ (rep_filled _ _ R)).
      apply Forall_app. split; [exact IH|]. constructor; [apply HP|constructor].
    + rewrite (represents_records _ _ R'). exact IH.
    + destruct (healthy_not_broken _ Hh Hb).
Qed.

(** X6. Every record stored in a directory reached without a failed
    [realloc] has [rec_len = sizeof(struct dir_entry)], [file_type = 1], a
    name array of [MAX_FILENAME] chars and a [name_len] below 256; and
    whenever the name array holds a terminator, [name_len] is the length of
    the stored string. *)
Theorem stored_record_fields (dir : htree_directory) (e : dir_entry) :
  BenchRun.reachable dir ->
  healthy dir ->
  e ∈ directory_records dir ->
  de_rec_len e = sizeof_dir_entry /\
  de_file_type e = 1 /\
  length (de_name e) = Z.to_nat MAX_FILENAME /\
  0 <= de_name_len e < 256 /\
  (strlen (de_name e) < MAX_FILENAME -> de_name_len e = strlen (de_name e)).
Proof.
  intros Hr Hh He.
  pose proof (reachable_records
    (fun e => de_rec_len e = sizeof_dir_entry /\
              de_file_type e = 1 /\
              length (de_name e) = Z.to_nat MAX_FILENAME /\
              0 <= de_name_len e < 256 /\
              (strlen (de_name e) < MAX_FILENAME -> de_name_len e = strlen (de_name e)))
    dir) as Hall.
  rewrite Forall_forall in Hall. apply Hall; [|assumption|assumption|exact He].
  intros name inode. simpl.
  split; [constants; reflexivity|]. split; [reflexivity|].
  split; [apply length_strncpy|].
  split; [unfold wrap8; apply Z.mod_pos_bound; lia|].
  rewrite strlen_strncpy. pose proof (strlen_nonneg name).
  constants. intros Hlt. unfold wrap8. rewrite Z.mod_small by lia. lia.
Qed.

Lemma stored_record_fields_witness :
  de_rec_len (new_dir_entry (chars "file1.txt") 1001) = sizeof_dir_entry /\
  de_file_type (new_dir_entry (chars "file1.txt") 1001) = 1 /\
  length (de_name (new_dir_entry (chars "file1.txt") 1001)) = Z.to_nat MAX_FILENAME /\
  0 <= de_name_len (new_dir_entry (chars "file1.txt") 1001) < 256 /\
  (strlen (de_name (new_dir_entry (chars "file1.txt") 1001)) < MAX_FILENAME ->
   de_name_len (new_dir_entry (chars "file1.txt") 1001)
   = strlen (de_name (new_dir_entry (chars "file1.txt") 1001))).
Proof.
  apply (stored_record_fields (BenchRun.dir_after [insert "file1.txt" 1001])
           (new_dir_entry (chars "file1.txt") 1001)).
  - apply Bench_reachable_dir_after.
  - intros Hnull. vm_compute in Hnull. discriminate.
  - vm_compute. left.
Defined.

(** ** The two files side by side *)

(** X7. When the heap answers, the NULL checks of the benchmark file
    change nothing: on every directory, reachable or not, [insert_file] of
    [htree_implementation.c] and of [htree_benchmark.c] have the same
    outcome, the same final directory or the same fault. *)
Theorem insert_file_agrees_when_heap_ok
    (name : list Z) (inode : Z) (dir : htree_directory) :
  Impl.insert_file HeapOk name inode dir = Bench.insert_file HeapOk name inode dir.
Proof.
  destruct (Impl.insert_file HeapOk name inode dir) as [r|] eqn:Himpl.
  - symmetry. apply (Impl_insert_file _ _ _ _ _ Himpl).
  - destruct (Bench.insert_file HeapOk name inode dir) as [r|] eqn:Hbench;
      [|reflexivity].
    apply Impl_insert_file_HeapOk in Hbench. congruence.
Qed.

Lemma first_room_None ess : forall i,
  first_room ess i = None <->
  Forall (fun es : list dir_entry => MAX_ENTRIES_PER_BLOCK <= Z.of_nat (length es)) ess.
Proof.
  induction ess as [|es ess IH]; intros i; simpl.
  - split; [constructor|reflexivity].
  - destruct (Z.ltb_spec (Z.of_nat (length es)) MAX_ENTRIES_PER_BLOCK).
    + split; [discriminate|]. intros Hall. inversion Hall; subst. lia.
    + rewrite IH. split; [intros; constructor; assumption|].
      intros Hall. inversion Hall; subst. assumption.
Qed.

Lemma represents_no_room dir ess :
  represents dir ess -> (no_room dir <-> first_room ess 0 = None).
Proof.
  intros R. unfold no_room. rewrite (represents_entry_blocks _ _ R), first_room_None.
  rewrite Forall_fmap. split; intros Hall; apply Forall_lookup_2; intros i es Hes.
  - pose proof (Forall_lookup_1 _ _ _ _ Hall Hes) as H.
    unfold compose in H. simpl in H. clear -H. lia.
  - pose proof (Forall_lookup_1 _ _ _ _ Hall Hes) as H.
    unfold compose. simpl.
    destruct (filled_bounds _ _ _ (rep_filled _ _ R) Hes) as [Hb _].
    simpl in H. clear -H Hb. lia.
Qed.

Lemma Impl_add_entry_block_fails heap dir :
  heap <> HeapOk -> Impl.add_entry_block heap dir = Fault.
Proof.
  intros Hheap.
  unfold Impl.add_entry_block, realloc, store_entry_block_slot. run. simpl.
  destruct (wrap32 (num_entry_blocks dir + 1) =? 0); [reflexivity|].
  destruct heap; [contradiction|reflexivity|reflexivity].
Qed.

(** X8. [htree_implementation.c] checks no allocation.  On a directory it
    reached, an insertion that finds a block with room never asks the heap:
    its outcome is the same whatever the heap would answer.  An insertion
    that finds every block full (or none) and gets NULL from [realloc] or
    [malloc] stores through NULL. *)
Theorem Impl_insert_file_without_memory
    (dir : htree_directory) (heap : heap_answer) (name : list Z) (inode : Z) :
  ImplRun.reachable dir ->
  heap <> HeapOk ->
  (no_room dir -> Impl.insert_file heap name inode dir = Fault) /\
  (~ no_room dir ->
   Impl.insert_file heap name inode dir = Impl.insert_file HeapOk name inode dir).
Proof.
  intros Hr Hheap. destruct (Impl_reachable_represents _ Hr) as [ess R].
  rewrite (represents_no_room _ _ R).
  change (Impl.insert_file heap name inode)
    with (p ← Impl.find_entry_block heap (hash_filename name);
          write_record p name inode).
  change (Impl.insert_file HeapOk name inode)
    with (p ← Impl.find_entry_block HeapOk (hash_filename name);
          write_record p name inode).
  split.
  - intros Hfull. unfold Impl.find_entry_block. run.
    rewrite Impl_find_entry_block_loop.
    rewrite (rep_num _ _ R), Nat2Z.id.
    rewrite (find_entry_block_loop_represents _ _ R) by lia.
    rewrite drop_0, Hfull, (Impl_add_entry_block_fails _ _ Hheap). reflexivity.
  - intros Hroom. destruct (first_room ess 0) as [p|] eqn:Hp; [|contradiction].
    run. rewrite !(Impl_find_entry_block_room _ _ _ _ _ R Hp). reflexivity.
Qed.

Lemma Impl_insert_file_without_memory_witness :
  (no_room (ImplRun.dir_after (replicate 15 (insert "a" 1))) ->
   Impl.insert_file MallocNull (chars "b") 2
     (ImplRun.dir_after (replicate 15 (insert "a" 1))) = Fault) /\
  (~ no_room (ImplRun.dir_after (replicate 15 (insert "a" 1))) ->
   Impl.insert_file MallocNull (chars "b") 2
     (ImplRun.dir_after (replicate 15 (insert "a" 1)))
   = Impl.insert_file HeapOk (chars "b") 2
       (ImplRun.dir_after (replicate 15 (insert "a" 1)))).
Proof.
  apply (Impl_insert_file_without_memory
           (ImplRun.dir_after (replicate 15 (insert "a" 1))) MallocNull (chars "b") 2).
  - apply Impl_reachable_dir_after.
  - discriminate.
Defined.

(** ** The benchmark file without memory *)

(** X9. A failed [malloc] costs the record and nothing else.  When every
    entry block is full (or there is none) and [malloc] answers NULL,
    [insert_file] returns with the same records and the same number of
    entry blocks as before; the directory stays usable: the next insertion
    that gets its memory appends its record behind the old ones. *)
Theorem insert_file_survives_malloc_null
    (dir : htree_directory) (name : list Z) (inode : Z) :
  BenchRun.reachable dir ->
  healthy dir ->
  num_entry_blocks dir < 2 ^ 32 - 1 ->
  no_room dir ->
  exists dir',
    Bench.insert_file MallocNull name inode dir = Done (tt, dir') /\
    directory_records dir' = directory_records dir /\
    num_entry_blocks dir' = num_entry_blocks dir /\
    healthy dir' /\
    forall name2 inode2,
      exists dir'',
        Bench.insert_file HeapOk name2 inode2 dir' = Done (tt, dir'') /\
        directory_records dir''
        = directory_records dir ++ [new_dir_entry name2 inode2] /\
        num_entry_blocks dir'' = num_entry_blocks dir + 1.
Proof.
  intros Hr Hh Hb Hfull. destruct (reachable_represents _ Hr Hh) as [ess R].
  apply (represents_no_room _ _ R) in Hfull.
  pose proof (rep_num _ _ R) as Hnum.
  destruct (insert_file_full_MallocNull _ _ name inode R Hfull) as (dir' & Hins & R');
    [lia|].
  exists dir'. split; [exact Hins|].
  rewrite (represents_records _ _ R'), (represents_records _ _ R).
  rewrite (rep_num _ _ R'), Hnum.
  split; [reflexivity|]. split; [reflexivity|].
  split; [apply (represents_healthy _ _ R')|].
  intros name2 inode2.
  destruct (insert_file_full_HeapOk _ _ name2 inode2 R' Hfull) as (dir'' & Hins2 & R'');
    [lia|].
  exists dir''. split; [exact Hins2|].
  rewrite (represents_records _ _ R''), (concat_place _ _ (rep_filled _ _ R)).
  split; [reflexivity|].
  rewrite (rep_num _ _ R''). unfold place. rewrite Hfull, length_app. simpl. lia.
Qed.

Lemma insert_file_survives_malloc_null_witness :
  exists dir',
    Bench.insert_file MallocNull (chars "b") 2
      (BenchRun.dir_after (replicate 15 (insert "a" 1))) = Done (tt, dir') /\
    directory_records dir'
    = directory_records (BenchRun.dir_after (replicate 15 (insert "a" 1))) /\
    num_entry_blocks dir'
    = num_entry_blocks (BenchRun.dir_after (replicate 15 (insert "a" 1))) /\
    healthy dir' /\
    forall name2 inode2,
      exists dir'',
        Bench.insert_file HeapOk name2 inode2 dir' = Done (tt, dir'') /\
        directory_records dir''
        = directory_records (BenchRun.dir_after (replicate 15 (insert "a" 1)))
          ++ [new_dir_entry name2 inode2] /\
        num_entry_blocks dir''
        = num_entry_blocks (BenchRun.dir_after (replicate 15 (insert "a" 1))) + 1.
Proof.
  apply (insert_file_survives_malloc_null
           (BenchRun.dir_after (replicate 15 (insert "a" 1))) (chars "b") 2).
  - apply Bench_reachable_dir_after.
  - intros Hnull. vm_compute in Hnull. discriminate.
  - vm_compute. reflexivity.
  - vm_compute. repeat constructor.
Defined.

Lemma broken_find_file dir name : broken dir -> Bench.find_file name dir = Fault.
Proof.
  intros Hb. unfold Bench.find_file. run.
  destruct (Z.to_nat (num_entry_blocks dir)) as [|k] eqn:Hk.
  - destruct Hb. lia.
  - simpl. run. rewrite (broken_load _ _ Hb). reflexivity.
Qed.

(** X10. A failed [realloc] ends the directory.  When every entry block is
    full (or there is none) and [realloc] answers NULL, [insert_file]
    returns as if nothing had happened, with the block counter one higher
    and the pointer array NULL; from then on every [find_file] and every
    [insert_file], whatever the name and whatever the heap answers, reads
    through the NULL pointer. *)
Theorem insert_file_realloc_null_is_final
    (dir : htree_directory) (name : list Z) (inode : Z) :
  BenchRun.reachable dir ->
  healthy dir ->
  num_entry_blocks dir < 2 ^ 32 - 1 ->
  no_room dir ->
  exists dir',
    Bench.insert_file ReallocNull name inode dir = Done (tt, dir') /\
    num_entry_blocks dir' = num_entry_blocks dir + 1 /\
    entry_blocks dir' = None /\
    (forall name2, Bench.find_file name2 dir' = Fault) /\
    (forall heap2 name2 inode2, Bench.insert_file heap2 name2 inode2 dir' = Fault).
Proof.
  intros Hr Hh Hb Hfull. destruct (reachable_represents _ Hr Hh) as [ess R].
  apply (represents_no_room _ _ R) in Hfull.
  pose proof (rep_num _ _ R) as Hnum.
  eexists. split; [apply (insert_file_full_ReallocNull _ _ _ _ R Hfull); lia|].
  assert (Hbroken : broken (set_entry_blocks None
            (set_num_entry_blocks (Z.of_nat (length ess) + 1) dir))).
  { split; simpl; [reflexivity|lia]. }
  simpl. split; [lia|]. split; [reflexivity|]. split.
  - intros name2. apply broken_find_file, Hbroken.
  - intros heap2 name2 inode2. apply broken_insert_file, Hbroken.
Qed.

Lemma insert_file_realloc_null_is_final_witness :
  exists dir',
    Bench.insert_file ReallocNull (chars "file1.txt") 1001 init_htree_directory
    = Done (tt, dir') /\
    num_entry_blocks dir' = num_entry_blocks init_htree_directory + 1 /\
    entry_blocks dir' = None /\
    (forall name2, Bench.find_file name2 dir' = Fault) /\
    (forall heap2 name2 inode2, Bench.insert_file heap2 name2 inode2 dir' = Fault).
Proof.
  apply (insert_file_realloc_null_is_final init_htree_directory (chars "file1.txt") 1001).
  - apply BenchRun.reach_init.
  - intros _. vm_compute. reflexivity.
  - vm_compute. reflexivity.
  - vm_compute. constructor.
Defined.

(** ** The digest of a concatenation *)

Lemma wrap32_mul_add a b c : wrap32 (wrap32 a * b + c) = wrap32 (a * b + c).
Proof.
  unfold wrap32. rewrite <- Zplus_mod_idemp_l, Zmult_mod_idemp_l, Zplus_mod_idemp_l.
  reflexivity.
Qed.

Lemma wrap32_add_r a b : wrap32 (a + wrap32 b) = wrap32 (a + b).
Proof. unfold wrap32. apply Zplus_mod_idemp_r. Qed.

Lemma wrap32_idem a : wrap32 (wrap32 a) = wrap32 a.
Proof. unfold wrap32. apply Zmod_mod. Qed.

Lemma hash_fold_shift t : forall h,
  fold_left (fun h b => wrap32 (Z.shiftl h 5 + h + b)) t (wrap32 h)
  = wrap32 (h * 33 ^ Z.of_nat (length t)
            + fold_left (fun h b => wrap32 (Z.shiftl h 5 + h + b)) t 0).
Proof.
  induction t as [|c t IH]; intros h.
  - simpl. f_equal; lia.
  - cbn [fold_left length]. rewrite !hash_step_33.
    rewrite (IH (wrap32 h * 33 + c)), (IH (0 * 33 + c)).
    rewrite wrap32_add_r.
    rewrite Nat2Z.inj_succ, Z.pow_succ_r by lia.
    replace ((wrap32 h * 33 + c) * 33 ^ Z.of_nat (length t)
             + fold_left (fun h b => wrap32 (Z.shiftl h 5 + h + b)) t 0)
      with (wrap32 h * (33 * 33 ^ Z.of_nat (length t))
            + (c * 33 ^ Z.of_nat (length t)
               + fold_left (fun h b => wrap32 (Z.shiftl h 5 + h + b)) t 0)) by lia.
    rewrite wrap32_mul_add. f_equal; lia.
Qed.

(** X12. The digest of a concatenation is the digest of the first part,
    multiplied by [33] for each char of the second, plus the digest of the
    second part, modulo [2^32]; so two names with the same digest still
    have the same digest after the same chars are appended to both. *)
Theorem hash_filename_app (s t : list Z) :
  Forall (fun c => c <> 0) s ->
  Forall (fun c => c <> 0) t ->
  hash_filename (s ++ t)
  = wrap32 (hash_filename s * 33 ^ Z.of_nat (length t) + hash_filename t) /\
  (forall s', Forall (fun c => c <> 0) s' ->
     hash_filename s' = hash_filename s ->
     hash_filename (s' ++ t) = hash_filename (s ++ t)).
Proof.
  intros Hs Ht.
  assert (Happ : forall u, Forall (fun c => c <> 0) u ->
            hash_filename (u ++ t)
            = wrap32 (hash_filename u * 33 ^ Z.of_nat (length t) + hash_filename t)).
  { intros u Hu. unfold hash_filename.
    pose proof (hash_filename_loop_range u 0 ltac:(lia)) as Hrange.
    rewrite (hash_filename_loop_fold (u ++ t)) by (apply Forall_app; auto).
    rewrite (hash_filename_loop_fold u 0 Hu) in *.
    rewrite (hash_filename_loop_fold t 0 Ht).
    rewrite fold_left_app.
    rewrite <- (wrap32_small _ Hrange) at 1.
    apply hash_fold_shift. }
  split; [apply Happ, Hs|].
  intros s' Hs' Heq. rewrite (Happ s' Hs'), (Happ s Hs), Heq. reflexivity.
Qed.

Lemma hash_filename_app_witness :
  hash_filename (chars "file" ++ chars ".txt")
  = wrap32 (hash_filename (chars "file") * 33 ^ Z.of_nat (length (chars ".txt"))
            + hash_filename (chars ".txt")) /\
  (forall s', Forall (fun c => c <> 0) s' ->
     hash_filename s' = hash_filename (chars "file") ->
     hash_filename (s' ++ chars ".txt") = hash_filename (chars "file" ++ chars ".txt")).
Proof.
  apply (hash_filename_app (chars "file") (chars ".txt")).
  - vm_compute. repeat constructor; discriminate.
  - vm_compute. repeat constructor; discriminate.
Defined.

(** X13. [hash_filename] maps different names to the same digest: behind
    any common start, the two chars [c], [d + 33] and the two chars [c + 1],
    [d] give the same value (as "aB" and "b!" do). *)
Theorem hash_filename_collides (s : list Z) (c d : Z) :
  Forall (fun c => c <> 0) (s ++ [c; d + 33]) ->
  Forall (fun c => c <> 0) (s ++ [c + 1; d]) ->
  s ++ [c; d + 33] <> s ++ [c + 1; d] /\
  hash_filename (s ++ [c; d + 33]) = hash_filename (s ++ [c + 1; d]).
Proof.
  intros H1 H2. split.
  - intros Heq. apply app_inv_head in Heq. injection Heq as Hc _. lia.
  - unfold hash_filename.
    rewrite !hash_filename_loop_fold by assumption.
    rewrite !fold_left_app. cbn [fold_left]. rewrite !hash_step_33.
    set (h := fold_left _ s 0).
    rewrite !wrap32_mul_add. f_equal. lia.
Qed.

Lemma hash_filename_collides_witness :
  chars "file_" ++ [97; 33 + 33] <> chars "file_" ++ [97 + 1; 33] /\
  hash_filename (chars "file_" ++ [97; 33 + 33])
  = hash_filename (chars "file_" ++ [97 + 1; 33]).
Proof.
  apply (hash_filename_collides (chars "file_") 97 33).
  - vm_compute. repeat constructor; discriminate.
  - vm_compute. repeat constructor; discriminate.
Defined.

(** ** Generated file names *)

Lemma store_char_at pre o rest c :
  store_char (pre ++ o :: rest) (length pre) c = Done (pre ++ Some c :: rest).
Proof.
  unfold store_char. rewrite length_app. simpl.
  destruct (decide _) as [_|Hn]; [|lia].
  replace (length pre) with (length pre + 0)%nat at 1 by lia.
  rewrite insert_app_r. reflexivity.
Qed.

Lemma charset_pick x :
  exists c,
    load_char charset (wrap_size_t x mod (sizeof_charset - 1)) = Done c /\
    c ∈ chars "abcdefghijklmnopqrstuvwxyz0123456789".
Proof.
  unfold load_char.
  change (sizeof_charset - 1) with 36.
  pose proof (Z.mod_pos_bound (wrap_size_t x) 36 ltac:(lia)) as Hidx.
  destruct (decide _) as [_|Hn]; [|lia].
  destruct (lookup_lt_is_Some_2 (chars "abcdefghijklmnopqrstuvwxyz0123456789")
              (Z.to_nat (wrap_size_t x mod 36))) as [c Hc].
  { change (length (chars "abcdefghijklmnopqrstuvwxyz0123456789")) with 36%nat. lia. }
  exists c. split; [|eapply list_elem_of_lookup_2, Hc].
  unfold charset. rewrite (lookup_app_l_Some _ _ _ _ Hc). reflexivity.
Qed.

Lemma generate_filename_loop_fills rand : forall todo pre rest k,
  exists cs,
    generate_filename_loop rand (length pre) todo k (pre ++ replicate todo None ++ rest)
    = Done (pre ++ (Some <$> cs) ++ rest, (k + todo)%nat) /\
    length cs = todo /\
    Forall (fun c => c ∈ chars "abcdefghijklmnopqrstuvwxyz0123456789") cs.
Proof.
  induction todo as [|todo IH]; intros pre rest k.
  - exists []. simpl. rewrite Nat.add_0_r. auto.
  - destruct (charset_pick (rand k)) as (c & Hload & Hc).
    destruct (IH (pre ++ [Some c]) rest (S k)) as (cs & Hrun & Hlen & Hall).
    exists (c :: cs). split; [|split; [simpl; lia|constructor; assumption]].
    cbn [generate_filename_loop replicate app]. rewrite Hload. cbn [and_then].
    rewrite store_char_at. cbn [and_then].
    rewrite length_app in Hrun. simpl in Hrun.
    replace (length pre + 1)%nat with (S (length pre)) in Hrun by lia.
    rewrite <- app_assoc in Hrun. simpl in Hrun. rewrite Hrun.
    rewrite <- app_assoc. simpl. repeat f_equal. lia.
Qed.

Lemma strcpy_writes src : forall pre old rest,
  length old = S (length (cstring src)) ->
  strcpy (pre ++ old ++ rest) (length pre) src
  = Done (pre ++ (Some <$> (cstring src ++ [0])) ++ rest).
Proof.
  induction src as [|c src IH]; intros pre old rest Hlen.
  - destruct old as [|o [|? ?]]; try discriminate. simpl. apply store_char_at.
  - cbn [strcpy cstring] in *. destruct (c =? 0).
    + destruct old as [|o [|? ?]]; try discriminate. simpl. apply store_char_at.
    + destruct old as [|o old]; [discriminate|]. simpl in Hlen.
      cbn [app]. rewrite store_char_at. cbn [and_then].
      specialize (IH (pre ++ [Some c]) old rest ltac:(lia)).
      rewrite length_app in IH. simpl in IH.
      replace (length pre + 1)%nat with (S (length pre)) in IH by lia.
      rewrite <- app_assoc in IH. simpl in IH. rewrite IH.
      rewrite <- app_assoc. reflexivity.
Qed.

Lemma read_string_terminated name :
  Forall (fun c => c <> 0) name ->
  read_string (Some <$> (name ++ [0])) = Done name.
Proof.
  induction 1 as [|c name Hc _ IH]; [reflexivity|].
  cbn [app fmap list_fmap read_string].
  destruct (Z.eqb_spec c 0); [contradiction|].
  change (list_fmap Z (option Z) Some (name ++ [0])) with (Some <$> (name ++ [0])).
  rewrite IH. reflexivity.
Qed.

Lemma generate_filename_runs (rand : nat -> Z) (k : nat) :
  exists cs,
    generate_filename rand k (replicate (Z.to_nat (FILENAME_LENGTH + 1)) None)
    = Done (Some <$> ((cs ++ chars ".txt") ++ [0]), (k + 16)%nat) /\
    length cs = 16%nat /\
    Forall (fun c => c ∈ chars "abcdefghijklmnopqrstuvwxyz0123456789") cs.
Proof.
  destruct (generate_filename_loop_fills rand 16 [] (replicate 5 None) k)
    as (cs & Hrun & Hlen & Hall).
  exists cs. split; [|split; assumption].
  unfold generate_filename.
  change (Z.to_nat (FILENAME_LENGTH - 4)) with 16%nat.
  change (Z.to_nat FILENAME_LENGTH) with 20%nat.
  change (replicate (Z.to_nat (FILENAME_LENGTH + 1)) None)
    with ([] ++ replicate 16 (@None Z) ++ replicate 5 None).
  change 0%nat with (length (@nil (option Z))) at 1.
  rewrite Hrun. cbn [and_then app].
  pose proof (strcpy_writes (chars ".txt") (Some <$> cs) (replicate 5 None) []
                eq_refl) as Hcpy.
  rewrite length_fmap, Hlen, app_nil_r in Hcpy. rewrite Hcpy. cbn [and_then].
  change (cstring (chars ".txt") ++ [0]) with (chars ".txt" ++ [0]).
  rewrite app_nil_r.
  pose proof (store_char_at (Some <$> (cs ++ chars ".txt")) (Some 0) [] 0) as Hnul.
  rewrite length_fmap, length_app, Hlen in Hnul.
  change (16 + length (chars ".txt"))%nat with 20%nat in Hnul.
  rewrite <- app_assoc, !fmap_app.
  rewrite !fmap_app, <- app_assoc in Hnul.
  change (Some <$> [0]) with [Some 0].
  rewrite Hnul. reflexivity.
Qed.

Lemma generated_nonzero cs :
  Forall (fun c => c ∈ chars "abcdefghijklmnopqrstuvwxyz0123456789") cs ->
  Forall (fun c => c <> 0) (cs ++ chars ".txt").
Proof.
  intros Hall. apply Forall_app. split.
  - eapply Forall_impl; [exact Hall|]. simpl. intros c Hc ->.
    revert Hc. vm_compute. intros Hc.
    repeat (inversion Hc as [|? ? ? Hc']; subst; clear Hc; rename Hc' into Hc).
  - vm_compute. repeat constructor; discriminate.
Qed.

Lemma generated_strlen cs :
  length cs = 16%nat ->
  Forall (fun c => c ∈ chars "abcdefghijklmnopqrstuvwxyz0123456789") cs ->
  strlen (cs ++ chars ".txt") = FILENAME_LENGTH.
Proof.
  intros Hlen Hall.
  rewrite strlen_cstring, (cstring_id _ (generated_nonzero _ Hall)), length_app, Hlen.
  reflexivity.
Qed.

(** X11. Whatever [rand] returns, [generate_filename] fills a buffer of
    [FILENAME_LENGTH + 1] chars with a terminated name of exactly
    [FILENAME_LENGTH] chars: 16 chars out of [a-z0-9], one for each of the
    16 calls of [rand] it makes, then ".txt".  The name holds no NUL before
    its terminator and is shorter than the name array of a directory
    record. *)
Theorem generate_filename_name (rand : nat -> Z) (k : nat) :
  exists name,
    generate_filename rand k (replicate (Z.to_nat (FILENAME_LENGTH + 1)) None)
    = Done (Some <$> (name ++ [0]), (k + 16)%nat) /\
    read_string (Some <$> (name ++ [0])) = Done name /\
    Forall (fun c => c ∈ chars "abcdefghijklmnopqrstuvwxyz0123456789") (take 16 name) /\
    drop 16 name = chars ".txt" /\
    Forall (fun c => c <> 0) name /\
    strlen name = FILENAME_LENGTH /\
    strlen name < MAX_FILENAME.
Proof.
  destruct (generate_filename_runs rand k) as (cs & Hrun & Hlen & Hall).
  pose proof (generated_nonzero _ Hall) as Hnz.
  exists (cs ++ chars ".txt").
  split; [exact Hrun|]. split; [apply read_string_terminated, Hnz|].
  rewrite take_app_length' by (symmetry; exact Hlen).
  rewrite drop_app_length' by (symmetry; exact Hlen).
  split; [exact Hall|]. split; [reflexivity|]. split; [exact Hnz|].
  rewrite (generated_strlen _ Hlen Hall). constants. split; reflexivity.
Qed.

(** ** Releasing a directory *)

Lemma free_blocks_slots ess junk : forall todo i,
  (i + todo = length ess)%nat ->
  free_blocks (slots_of ess ++ junk) i todo
  = Done (ReleasedBlock <$> (block_of <$> drop i ess)).
Proof.
  induction todo as [|todo IH]; intros i Hlen.
  - rewrite drop_ge by lia. reflexivity.
  - destruct (lookup_lt_is_Some_2 ess i) as [es Hes]; [lia|].
    cbn [free_blocks]. rewrite (slots_of_lookup _ _ _ _ Hes).
    rewrite IH by lia. rewrite (drop_S _ _ _ Hes). reflexivity.
Qed.

Lemma cleanup_represents dir ess :
  represents dir ess ->
  cleanup_htree_directory (Some dir)
  = Done ((ReleasedBlock <$> directory_blocks dir)
          ++ match entry_blocks dir with
             | Some slots => [ReleasedArray slots]
             | None => []
             end
          ++ [ReleasedDirectory]).
Proof.
  intros R.
  unfold cleanup_htree_directory, directory_blocks.
  rewrite (represents_index_blocks _ _ R), (represents_entry_blocks _ _ R).
  rewrite (rep_index_blocks _ _ R), (rep_num _ _ R). cbn [free_block_array and_then].
  destruct (rep_slots _ _ R) as [junk Hj].
  destruct (entry_blocks dir) as [slots|] eqn:Hslots; simpl in Hj.
  - subst slots. cbn [free_block_array]. rewrite Nat2Z.id.
    rewrite free_blocks_slots by lia. rewrite drop_0. cbn [and_then app].
    rewrite fmap_cons. simpl. rewrite <- app_assoc. reflexivity.
  - destruct ess; [|discriminate]. reflexivity.
Qed.

(** X14. On a directory reached without a failed [realloc],
    [cleanup_htree_directory] passes to [free] the root block and every
    entry block, each once and in the order of the pointer array, then the
    pointer array if one was allocated, then the directory itself; it reads
    no slot beyond the blocks counted. *)
Theorem cleanup_releases_every_block (dir : htree_directory) :
  BenchRun.reachable dir ->
  healthy dir ->
  cleanup_htree_directory (Some dir)
  = Done ((ReleasedBlock <$> directory_blocks dir)
          ++ match entry_blocks dir with
             | Some slots => [ReleasedArray slots]
             | None => []
             end
          ++ [ReleasedDirectory]).
Proof.
  intros Hr Hh. destruct (reachable_represents _ Hr Hh) as [ess R].
  apply (cleanup_represents _ _ R).
Qed.

Lemma cleanup_releases_every_block_witness :
  cleanup_htree_directory (Some (BenchRun.dir_after (replicate 16 (insert "a" 1))))
  = Done ((ReleasedBlock <$> directory_blocks
                               (BenchRun.dir_after (replicate 16 (insert "a" 1))))
          ++ match entry_blocks (BenchRun.dir_after (replicate 16 (insert "a" 1))) with
             | Some slots => [ReleasedArray slots]
             | None => []
             end
          ++ [ReleasedDirectory]).
Proof.
  apply (cleanup_releases_every_block (BenchRun.dir_after (replicate 16 (insert "a" 1)))).
  - apply Bench_reachable_dir_after.
  - intros Hnull. vm_compute in Hnull. discriminate.
Defined.

(** X15. After the failed [realloc] of X10, [cleanup_htree_directory]
    finds the pointer array NULL and passes only the root block and the
    directory to [free]: none of the entry blocks the directory held is
    released. *)
Theorem cleanup_after_realloc_null_leaks
    (dir : htree_directory) (name : list Z) (inode : Z) :
  BenchRun.reachable dir ->
  healthy dir ->
  num_entry_blocks dir < 2 ^ 32 - 1 ->
  no_room dir ->
  exists dir',
    Bench.insert_file ReallocNull name inode dir = Done (tt, dir') /\
    cleanup_htree_directory (Some dir')
    = Done [ReleasedBlock (root_block dir); ReleasedDirectory] /\
    Z.of_nat (length (directory_entry_blocks dir)) = num_entry_blocks dir.
Proof.
  intros Hr Hh Hb Hfull. destruct (reachable_represents _ Hr Hh) as [ess R].
  apply (represents_no_room _ _ R) in Hfull.
  pose proof (rep_num _ _ R) as Hnum.
  eexists. split; [apply (insert_file_full_ReallocNull _ _ _ _ R Hfull); lia|].
  split.
  - unfold cleanup_htree_directory. simpl.
    rewrite (rep_index_blocks _ _ R). reflexivity.
  - rewrite (represents_entry_blocks _ _ R), length_fmap. lia.
Qed.

Lemma cleanup_after_realloc_null_leaks_witness :
  exists dir',
    Bench.insert_file ReallocNull (chars "b") 2
      (BenchRun.dir_after (replicate 15 (insert "a" 1))) = Done (tt, dir') /\
    cleanup_htree_directory (Some dir')
    = Done [ReleasedBlock (root_block (BenchRun.dir_after (replicate 15 (insert "a" 1))));
            ReleasedDirectory] /\
    Z.of_nat (length (directory_entry_blocks
                        (BenchRun.dir_after (replicate 15 (insert "a" 1)))))
    = num_entry_blocks (BenchRun.dir_after (replicate 15 (insert "a" 1))).
Proof.
  apply (cleanup_after_realloc_null_leaks
           (BenchRun.dir_after (replicate 15 (insert "a" 1))) (chars "b") 2).
  - apply Bench_reachable_dir_after.
  - intros Hnull. vm_compute in Hnull. discriminate.
  - vm_compute. reflexivity.
  - vm_compute. repeat constructor.
Defined.

(** ** The benchmark *)

Lemma cstring_strncpy n : forall s,
  strlen s < Z.of_nat n -> cstring (strncpy s n) = cstring s.
Proof.
  induction n as [|n IH]; intros s Hlen.
  - pose proof (strlen_nonneg s). lia.
  - destruct s as [|c s]; cbn [strncpy cstring strlen] in *.
    + rewrite Z.eqb_refl. reflexivity.
    + destruct (Z.eqb_spec c 0) as [Hc|Hc]; cbn [cstring].
      * rewrite Z.eqb_refl. reflexivity.
      * destruct (Z.eqb_spec c 0); [contradiction|]. rewrite IH by lia. reflexivity.
Qed.

Lemma first_request_found name reqs rq :
  rq ∈ reqs -> cstring (rq_name rq) = cstring name ->
  exists rq', first_request name reqs = Some rq' /\
              cstring (rq_name rq') = cstring name.
Proof.
  induction 1 as [rq reqs|rq rq0 reqs _ IH]; intros Heq; simpl.
  - destruct (decide _); [eauto|contradiction].
  - destruct (decide _); [eauto|]. apply IH, Heq.
Qed.

Lemma generate_filenames_names rand : forall todo k,
  exists names,
    generate_filenames rand todo k
    = Done ((fun name => Some <$> (name ++ [0])) <$> names, (k + 16 * todo)%nat) /\
    length names = todo /\
    Forall generated names.
Proof.
  induction todo as [|todo IH]; intros k.
  - exists []. simpl. rewrite Nat.add_0_r. repeat split. constructor.
  - destruct (generate_filename_runs rand k) as (cs & Hgen & Hcs & Halpha).
    pose proof (generated_nonzero _ Halpha) as Hnz.
    pose proof (generated_strlen _ Hcs Halpha) as Hlen.
    set (name := cs ++ chars ".txt") in *.
    destruct (IH (k + 16)%nat) as (names & Hrest & Hcount & Hall).
    exists (name :: names). split; [|split; [simpl; lia|]].
    + cbn [generate_filenames]. rewrite Hgen. cbn [and_then]. rewrite Hrest.
      cbn [and_then]. rewrite fmap_cons.
      replace (k + 16 * S todo)%nat with (k + 16 + 16 * todo)%nat by lia.
      reflexivity.
    + constructor; [split; assumption|assumption].
Qed.

Lemma insert_filenames_requests names :
  Forall generated names ->
  forall todo i dir, (i + todo = length names)%nat ->
  insert_filenames ((fun name => Some <$> (name ++ [0])) <$> names) i todo dir
  = BenchRun.insert_files (numbered_requests i (drop i names)) dir.
Proof.
  intros Hgen. induction todo as [|todo IH]; intros i dir Hlen.
  - rewrite drop_ge by lia. reflexivity.
  - destruct (lookup_lt_is_Some_2 names i) as [name Hname]; [lia|].
    destruct (Forall_lookup_1 _ _ _ _ Hgen Hname) as [Hnz _].
    cbn [insert_filenames]. rewrite list_lookup_fmap, Hname. cbn [fmap option_fmap option_map].
    rewrite (read_string_terminated _ Hnz), (drop_S _ _ _ Hname).
    cbn [numbered_requests BenchRun.insert_files rq_heap rq_name rq_inode]. run.
    destruct (Bench.insert_file _ _ _ dir) as [[[] dir1]|]; [|reflexivity].
    apply IH. lia.
Qed.

Lemma numbered_requests_ok names : forall i,
  Forall (fun rq => rq_heap rq = HeapOk) (numbered_requests i names) /\
  length (numbered_requests i names) = length names.
Proof.
  induction names as [|name names IH]; intros i; simpl.
  - split; [constructor|reflexivity].
  - destruct (IH (S i)) as [Hok Hlen]. split; [constructor; auto|lia].
Qed.

Lemma numbered_requests_elem names : forall i j name,
  names !! j = Some name ->
  exists rq, rq ∈ numbered_requests i names /\ rq_name rq = name.
Proof.
  induction names as [|name0 names IH]; intros i j name Hj; [discriminate|].
  destruct j as [|j]; simpl in Hj.
  - injection Hj as ->. eexists. split; [left|reflexivity].
  - destruct (IH (S i) j name Hj) as (rq & Hin & Hname).
    exists rq. split; [right; exact Hin|exact Hname].
Qed.

(** The directory the insertion loop of the benchmark builds. *)
Lemma benchmark_directory rand :
  exists names dir ess,
    generate_filenames rand (Z.to_nat NUM_FILES) 0
    = Done ((fun name => Some <$> (name ++ [0])) <$> names,
            (0 + 16 * Z.to_nat NUM_FILES)%nat) /\
    length names = Z.to_nat NUM_FILES /\
    Forall generated names /\
    insert_filenames ((fun name => Some <$> (name ++ [0])) <$> names) 0
      (Z.to_nat NUM_FILES) init_htree_directory = Done (tt, dir) /\
    represents dir ess /\
    concat ess = entry_of <$> numbered_requests 0 names.
Proof.
  destruct (generate_filenames_names rand (Z.to_nat NUM_FILES) 0)
    as (names & Hgen & Hlen & Hall).
  destruct (numbered_requests_ok names 0) as [Hok Hcount].
  destruct (Bench_run_records (numbered_requests 0 names) _ _ represents_init Hok)
    as (dir & ess & Hrun & R & Hcat).
  { rewrite Hcount, Hlen. simpl length. rewrite Z2Nat.id by (vm_compute; discriminate).
    vm_compute. reflexivity. }
  exists names, dir, ess. repeat (split; [assumption|]).
  split; [|split; [exact R|exact Hcat]].
  rewrite (insert_filenames_requests _ Hall) by lia. rewrite drop_0. exact Hrun.
Qed.

(** X16. In [run_htree_benchmark], whatever [rand] returns and with every
    allocation succeeding, the [NUM_FILES] generated names are all inserted:
    the directory ends with [NUM_FILES] records in
    [ceil(NUM_FILES / MAX_ENTRIES_PER_BLOCK)] entry blocks, and the lookup of
    any of the generated names finds a record that carries this name. *)
Theorem benchmark_lookups_hit (rand : nat -> Z) :
  exists filenames k dir,
    generate_filenames rand (Z.to_nat NUM_FILES) 0 = Done (filenames, k) /\
    insert_filenames filenames 0 (Z.to_nat NUM_FILES) init_htree_directory
    = Done (tt, dir) /\
    num_entry_blocks dir
    = (NUM_FILES + MAX_ENTRIES_PER_BLOCK - 1) / MAX_ENTRIES_PER_BLOCK /\
    Z.of_nat (length (directory_records dir)) = NUM_FILES /\
    forall index buffer,
      filenames !! index = Some buffer ->
      exists name e,
        read_string buffer = Done name /\
        Bench.find_file name dir = Done (Some e, dir) /\
        cstring (de_name e) = name.
Proof.
  destruct (benchmark_directory rand)
    as (names & dir & ess & Hgen & Hlen & Hall & Hrun & R & Hcat).
  destruct (numbered_requests_ok names 0) as [_ Hcount].
  assert (Hrecords : Z.of_nat (length (concat ess)) = NUM_FILES).
  { rewrite Hcat, length_fmap, Hcount, Hlen. apply Z2Nat.id. vm_compute. discriminate. }
  eexists _, _, dir. split; [exact Hgen|]. split; [exact Hrun|].
  split; [|split].
  - rewrite (rep_num _ _ R), (filled_blocks _ (rep_filled _ _ R)), Hrecords. reflexivity.
  - rewrite (represents_records _ _ R). exact Hrecords.
  - intros index buffer Hbuf.
    rewrite list_lookup_fmap in Hbuf.
    destruct (names !! index) as [name|] eqn:Hname; [|discriminate].
    injection Hbuf as <-.
    destruct (Forall_lookup_1 _ _ _ _ Hall Hname) as [Hnz Hstrlen].
    assert (Hshort : strlen name < MAX_FILENAME).
    { rewrite Hstrlen. constants. reflexivity. }
    destruct (numbered_requests_elem names 0 _ _ Hname) as (rq & Hin & Hrq).
    destruct (first_request_found name _ rq Hin) as (rq' & Hfirst & Hsame);
      [rewrite Hrq; reflexivity|].
    exists name, (entry_of rq').
    split; [apply read_string_terminated, Hnz|]. split.
    + rewrite (find_file_represents _ _ _ R), Hcat.
      unfold lift. rewrite (first_match_requests _ _ Hshort), Hfirst. reflexivity.
    + simpl. rewrite cstring_strncpy.
      * rewrite Hsame. apply cstring_id, Hnz.
      * rewrite strlen_cstring, Hsame, <- strlen_cstring. constants. lia.
Qed.

Lemma lookup_filenames_returns rand names dir ess :
  represents dir ess ->
  Forall generated names ->
  Z.of_nat (length names) = NUM_FILES ->
  (forall k, 0 <= rand k) ->
  forall todo k,
    lookup_filenames rand ((fun name => Some <$> (name ++ [0])) <$> names) todo k dir
    = Done ((k + todo)%nat, dir).
Proof.
  intros R Hall Hlen Hrand. induction todo as [|todo IH]; intros k.
  - simpl. rewrite Nat.add_0_r. reflexivity.
  - cbn [lookup_filenames].
    pose proof (Z.rem_bound_pos (rand k) NUM_FILES (Hrand k) ltac:(reflexivity)) as Hidx.
    destruct (decide _) as [_|Hneg]; [|lia].
    destruct (lookup_lt_is_Some_2 names (Z.to_nat (Z.rem (rand k) NUM_FILES)))
      as [name Hname]; [lia|].
    destruct (Forall_lookup_1 _ _ _ _ Hall Hname) as [Hnz Hstrlen].
    rewrite list_lookup_fmap, Hname. cbn [fmap option_fmap option_map].
    rewrite (read_string_terminated _ Hnz). run.
    rewrite (find_file_represents _ _ _ R).
    destruct (first_match_defined name (concat ess)) as [r Hr].
    { rewrite Hstrlen. constants. reflexivity. }
    { apply (represents_names _ _ R). }
    rewrite Hr. unfold lift. rewrite IH.
    replace (S k + todo)%nat with (k + S todo)%nat by lia. reflexivity.
Qed.

(** X17. With every allocation succeeding and [rand] returning what the
    C library promises (nothing negative), [run_htree_benchmark] runs
    through without a fault, and the memory usage it reports is the size
    of the directory struct plus the size of a block for the root and for
    each of the [ceil(NUM_FILES / MAX_ENTRIES_PER_BLOCK)] entry blocks,
    whatever the names were. *)
Theorem run_htree_benchmark_memory_usage (rand : nat -> Z) :
  (forall k, 0 <= rand k) ->
  run_htree_benchmark rand
  = Done (sizeof_htree_directory
          + sizeof_htree_block
            * (1 + (NUM_FILES + MAX_ENTRIES_PER_BLOCK - 1) / MAX_ENTRIES_PER_BLOCK)).
Proof.
  intros Hrand.
  destruct (benchmark_directory rand)
    as (names & dir & ess & Hgen & Hlen & Hall & Hrun & R & Hcat).
  destruct (numbered_requests_ok names 0) as [_ Hcount].
  assert (Hnum : num_entry_blocks dir
                 = (NUM_FILES + MAX_ENTRIES_PER_BLOCK - 1) / MAX_ENTRIES_PER_BLOCK).
  { rewrite (rep_num _ _ R), (filled_blocks _ (rep_filled _ _ R)).
    rewrite Hcat, length_fmap, Hcount, Hlen.
    rewrite Z2Nat.id by (vm_compute; discriminate). reflexivity. }
  unfold run_htree_benchmark. rewrite Hgen. cbn [and_then]. run.
  rewrite Hrun.
  rewrite (lookup_filenames_returns rand names dir ess R Hall)
    by (try assumption; rewrite Hlen; apply Z2Nat.id; vm_compute; discriminate).
  rewrite (cleanup_represents _ _ R). cbn [and_then].
  unfold memory_usage. rewrite (rep_num_index _ _ R), Hnum.
  vm_compute. reflexivity.
Qed.

Lemma run_htree_benchmark_memory_usage_witness :
  run_htree_benchmark (fun k => Z.of_nat k)
  = Done (sizeof_htree_directory
          + sizeof_htree_block
            * (1 + (NUM_FILES + MAX_ENTRIES_PER_BLOCK - 1) / MAX_ENTRIES_PER_BLOCK)).
Proof.
  apply (run_htree_benchmark_memory_usage (fun k => Z.of_nat k)).
  intros k. lia.
Defined.

(** ** Names that fill the name array *)

Lemma strcmp_long buf : forall name,
  Z.of_nat (length buf) <= strlen name -> strcmp_is0 buf name <> Done true.
Proof.
  induction buf as [|b buf IH]; intros name Hlen; [discriminate|].
  destruct name as [|c name]; cbn [length strlen] in Hlen; [lia|].
  cbn [strcmp_is0 hd tl].
  destruct (Z.eqb_spec c 0) as [Hc|Hc]; [lia|].
  destruct (Z.eqb_spec b c) as [->|_]; [|discriminate].
  destruct (Z.eqb_spec c 0); [contradiction|]. apply IH. lia.
Qed.

Lemma strcmp_strncpy_long n : forall name,
  Z.of_nat n <= strlen name -> strcmp_is0 (strncpy name n) name = Fault.
Proof.
  induction n as [|n IH]; intros name Hlen; [reflexivity|].
  destruct name as [|c name]; cbn [strlen] in Hlen; [lia|].
  cbn [strncpy]. destruct (Z.eqb_spec c 0) as [Hc|Hc]; [lia|].
  cbn [strcmp_is0 hd tl]. rewrite Z.eqb_refl.
  destruct (Z.eqb_spec c 0); [contradiction|]. apply IH. lia.
Qed.

Lemma first_match_long name recs :
  MAX_FILENAME <= strlen name ->
  Forall (fun e => length (de_name e) = Z.to_nat MAX_FILENAME) recs ->
  first_match name recs = Done None \/ first_match name recs = Fault.
Proof.
  intros Hlen. induction 1 as [|e recs He _ IH]; [left; reflexivity|].
  cbn [first_match].
  pose proof (strcmp_long (de_name e) name) as Hne.
  destruct (strcmp_is0 (de_name e) name) as [[|]|]; [|exact IH|right; reflexivity].
  exfalso. apply Hne; [|reflexivity]. rewrite He. revert Hlen. constants. lia.
Qed.

Lemma strncpy_long_nonzero n : forall name,
  Z.of_nat n <= strlen name -> Forall (fun c => c <> 0) (strncpy name n).
Proof.
  induction n as [|n IH]; intros name Hlen; [constructor|].
  destruct name as [|c name]; cbn [strlen] in Hlen; [lia|].
  cbn [strncpy]. destruct (Z.eqb_spec c 0) as [Hc|Hc]; [lia|].
  constructor; [exact Hc|]. apply IH. lia.
Qed.

(** With a NUL in the byte behind the array, the comparison ends there. *)
Lemma strcmp_strncpy_padded n : forall name,
  Z.of_nat n <= strlen name ->
  strcmp_is0 (strncpy name n ++ [0]) name = Done (strlen name =? Z.of_nat n).
Proof.
  induction n as [|n IH]; intros name Hlen.
  - cbn [strncpy app strcmp_is0]. rewrite Z.eqb_refl.
    destruct name as [|c name]; cbn [hd strlen].
    + reflexivity.
    + pose proof (strlen_nonneg name).
      destruct (Z.eqb_spec 0 c) as [<-|Hc].
      * rewrite Z.eqb_refl. reflexivity.
      * destruct (Z.eqb_spec c 0); [congruence|].
        destruct (Z.eqb_spec (1 + strlen name) (Z.of_nat 0)); [lia|reflexivity].
  - destruct name as [|c name]; cbn [strlen] in *; [lia|].
    cbn [strncpy]. destruct (Z.eqb_spec c 0) as [Hc|Hc]; [lia|].
    cbn [app strcmp_is0 hd tl]. rewrite Z.eqb_refl.
    destruct (Z.eqb_spec c 0); [contradiction|].
    rewrite IH by lia.
    f_equal. destruct (Z.eqb_spec (strlen name) (Z.of_nat n));
      destruct (Z.eqb_spec (1 + strlen name) (Z.of_nat (S n))); try reflexivity; lia.
Qed.

(** X18. A name of [MAX_FILENAME] chars or more is stored like any other,
    cut to its first [MAX_FILENAME] chars and without terminator: the name
    array of the record holds no NUL.  The [strcmp] of [find_file] on that
    record against the name finds all [MAX_FILENAME] chars equal and goes on
    to the byte behind the array, a read that C does not define ([Fault]):
    the lookup that follows the insertion always leaves a name array.  What
    the comparison answers is then up to that byte, the one byte of padding
    that [sizeof] gives the record: with a NUL there, a name of exactly
    [MAX_FILENAME] chars compares equal and a longer one does not. *)
Theorem long_name_lookup_leaves_name_array
    (dir : htree_directory) (name : list Z) (inode : Z) :
  BenchRun.reachable dir ->
  healthy dir ->
  num_entry_blocks dir < 2 ^ 32 - 1 ->
  MAX_FILENAME <= strlen name ->
  exists dir',
    Bench.insert_file HeapOk name inode dir = Done (tt, dir') /\
    directory_records dir' = directory_records dir ++ [new_dir_entry name inode] /\
    de_name (new_dir_entry name inode) = take (Z.to_nat MAX_FILENAME) name /\
    Forall (fun c => c <> 0) (de_name (new_dir_entry name inode)) /\
    strcmp_is0 (de_name (new_dir_entry name inode)) name = Fault /\
    Bench.find_file name dir' = Fault /\
    sizeof_dir_entry - (4 + 2 + 1 + 1 + MAX_FILENAME) = 1 /\
    strcmp_is0 (de_name (new_dir_entry name inode) ++ [0]) name
    = Done (strlen name =? MAX_FILENAME).
Proof.
  intros Hr Hh Hb Hlen. destruct (reachable_represents _ Hr Hh) as [ess R].
  pose proof (first_match_long name (concat ess) Hlen (represents_names _ _ R)) as Hold.
  assert (Hn : Z.of_nat (Z.to_nat MAX_FILENAME) <= strlen name)
    by (revert Hlen; constants; lia).
  destruct (insert_file_HeapOk_total _ _ name inode R Hb) as (dir' & Hins & R').
  exists dir'. split; [exact Hins|].
  split.
  { rewrite (represents_records _ _ R'), (represents_records _ _ R).
    apply (concat_place _ _ (rep_filled _ _ R)). }
  cbn [new_dir_entry de_name].
  split; [apply strncpy_long, Hn|].
  split; [apply strncpy_long_nonzero, Hn|].
  split; [apply strcmp_strncpy_long, Hn|].
  split.
  { rewrite (find_file_represents _ _ _ R').
    rewrite (concat_place _ _ (rep_filled _ _ R)), first_match_app. unfold lift.
    destruct Hold as [-> | ->]; [|reflexivity].
    cbn [first_match new_dir_entry de_name].
    rewrite strcmp_strncpy_long; [reflexivity|exact Hn]. }
  split; [constants; reflexivity|].
  rewrite (strcmp_strncpy_padded _ _ Hn), Z2Nat.id by (constants; lia). reflexivity.
Qed.

Lemma long_name_lookup_leaves_name_array_witness :
  exists dir',
    Bench.insert_file HeapOk (replicate 300 120) 7
      (BenchRun.dir_after [insert "file1.txt" 1001]) = Done (tt, dir') /\
    directory_records dir'
    = directory_records (BenchRun.dir_after [insert "file1.txt" 1001])
      ++ [new_dir_entry (replicate 300 120) 7] /\
    de_name (new_dir_entry (replicate 300 120) 7)
    = take (Z.to_nat MAX_FILENAME) (replicate 300 120) /\
    Forall (fun c => c <> 0) (de_name (new_dir_entry (replicate 300 120) 7)) /\
    strcmp_is0 (de_name (new_dir_entry (replicate 300 120) 7)) (replicate 300 120)
    = Fault /\
    Bench.find_file (replicate 300 120) dir' = Fault /\
    sizeof_dir_entry - (4 + 2 + 1 + 1 + MAX_FILENAME) = 1 /\
    strcmp_is0 (de_name (new_dir_entry (replicate 300 120) 7) ++ [0])
      (replicate 300 120)
    = Done (strlen (replicate 300 120) =? MAX_FILENAME).
Proof.
  apply (long_name_lookup_leaves_name_array
           (BenchRun.dir_after [insert "file1.txt" 1001]) (replicate 300 120) 7).
  - apply Bench_reachable_dir_after.
  - intros Hnull. vm_compute in Hnull. discriminate.
  - vm_compute. reflexivity.
  - vm_compute. discriminate.
Defined.
